(** * Address normalisation and hierarchical resolution (api/utils/address.py)

    A shallow embedding of the address engine: the text normaliser
    [clean_full_address] and the province / district / ward resolver
    [parse_address], followed by the properties stated about them.

    Modelling conventions.
    - A Python [str] is a list of characters.  The embedding covers 7-bit
      text: on such text Unicode NFD normalisation, the combining-mark filter
      and the accent table of [remove_accent] change nothing, [\s], [\d], [\w],
      [str.split], [str.strip] and [str.capitalize] are the ASCII ones.
    - Python integers used as indices are [Z]; [-1] is "not found".
    - The [re] module is embedded as a backtracking matcher over a small
      pattern syntax that covers every pattern the source builds.
    - A [dict] is an association list in insertion order; a missing key
      raises [KeyError], modelled by the [result] type. *)

From Stdlib Require Import Ascii String.
From Stdlib Require Import List ZArith Lia Bool Arith.
Import ListNotations.

Local Open Scope list_scope.

(* ===================================================================== *)
(** ** Characters and Python string primitives *)
(* ===================================================================== *)

Module Py.

Definition str := list ascii.

(** A string literal of the source. *)
Definition txt (s : string) : str := list_ascii_of_string s.

Definition code (c : ascii) : nat := nat_of_ascii c.

Definition in_range (lo hi : nat) (c : ascii) : bool :=
  (lo <=? code c) && (code c <=? hi).

(** [str.isspace] / [\s] on 7-bit characters: 9-13 and 28-32. *)
Definition is_space (c : ascii) : bool := in_range 9 13 c || in_range 28 32 c.

(** [\d] *)
Definition is_digit (c : ascii) : bool := in_range 48 57 c.

Definition is_upper (c : ascii) : bool := in_range 65 90 c.
Definition is_lower (c : ascii) : bool := in_range 97 122 c.

(** [\w]: letters, digits and the underscore. *)
Definition is_word (c : ascii) : bool :=
  is_upper c || is_lower c || is_digit c || Ascii.eqb c "_".

Definition to_lower (c : ascii) : ascii :=
  if is_upper c then ascii_of_nat (code c + 32) else c.

Definition to_upper (c : ascii) : ascii :=
  if is_lower c then ascii_of_nat (code c - 32) else c.

Fixpoint str_eqb (a b : str) : bool :=
  match a, b with
  | [], [] => true
  | x :: a', y :: b' => Ascii.eqb x y && str_eqb a' b'
  | _, _ => false
  end.

(** [text.startswith(p)] *)
Fixpoint startswith (p text : str) : bool :=
  match p, text with
  | [], _ => true
  | x :: p', y :: t' => Ascii.eqb x y && startswith p' t'
  | _ :: _, [] => false
  end.

(** [text.endswith(p)] *)
Definition endswith (text p : str) : bool := startswith (rev p) (rev text).

(** [word.capitalize()]: first character upper-cased, the rest lower-cased. *)
Definition capitalize (w : str) : str :=
  match w with
  | [] => []
  | c :: t => to_upper c :: map to_lower t
  end.

Definition cons_head (c : ascii) (ws : list str) : list str :=
  match ws with
  | [] => [[c]]
  | w :: ws' => (c :: w) :: ws'
  end.

(** [text.split()]: the maximal runs of non-whitespace characters. *)
Fixpoint split (text : str) : list str :=
  match text with
  | [] => []
  | c :: t =>
      if is_space c then split t
      else match t with
           | [] => [[c]]
           | d :: _ => if is_space d then [c] :: split t
                       else cons_head c (split t)
           end
  end.

(** [sep.join(ws)] *)
Fixpoint join (sep : str) (ws : list str) : str :=
  match ws with
  | [] => []
  | [w] => w
  | w :: ws' => w ++ sep ++ join sep ws'
  end.

Fixpoint lstrip (text : str) : str :=
  match text with
  | [] => []
  | c :: t => if is_space c then lstrip t else text
  end.

(** [text.strip()] *)
Definition strip (text : str) : str := rev (lstrip (rev (lstrip text))).

(** [text.rfind(sub)]: the greatest index at which [sub] starts, or [-1].
    The scan keeps the last position seen so far at which [sub] is a
    prefix of what is left (the end position counts for the empty [sub]). *)
Fixpoint rfind_from (pos best : Z) (text sub : str) : Z :=
  let best' := if startswith sub text then pos else best in
  match text with
  | [] => best'
  | _ :: t => rfind_from (pos + 1) best' t sub
  end.

Definition rfind (text sub : str) : Z := rfind_from 0 (-1) text sub.

(** [text[:i]] and [text[i:]] for a non-negative [i]. *)
Definition slice_to (text : str) (i : Z) : str := firstn (Z.to_nat i) text.
Definition slice_from (text : str) (i : Z) : str := skipn (Z.to_nat i) text.

(** [len(text)] *)
Definition len (text : str) : Z := Z.of_nat (length text).

(** [text.replace(old, new)]: every non-overlapping occurrence, left to
    right.  [skip] counts the characters of the current occurrence still
    to be dropped. *)
Fixpoint replace_go (old new text : str) (skip : nat) : str :=
  match text with
  | [] => []
  | c :: t =>
      match skip with
      | S k => replace_go old new t k
      | O => if startswith old text
             then new ++ replace_go old new t (length old - 1)
             else c :: replace_go old new t 0
      end
  end.

Definition replace (text old new : str) : str :=
  match old with
  | [] => new ++ flat_map (fun c => c :: new) text
  | _ :: _ => replace_go old new text 0
  end.

End Py.

Import Py.

(* ===================================================================== *)
(** ** The regular expressions of the module *)
(* ===================================================================== *)

Module Re.

(** Pattern syntax.  Repetition is only ever applied by the source to a
    single-character class ([\s+], [\s*], [\d+], [0+]), so [RStar] takes
    the class; [p+] is [RSeq (RCls p) (RStar p)]. *)
Inductive regex : Type :=
| REps
| RLit (c : ascii)
| RCls (p : ascii -> bool)
| RSeq (r1 r2 : regex)
| RAlt (r1 r2 : regex)
| RStar (p : ascii -> bool)
| RGrp (n : nat) (r : regex)
| RWordB.

Definition captures := list (nat * str).

(** A literal character under [re.IGNORECASE] ([ic = true]) or not. *)
Definition chr_eq (ic : bool) (c d : ascii) : bool :=
  if ic then Ascii.eqb (to_lower c) (to_lower d) else Ascii.eqb c d.

Definition word_at (t : str) : bool :=
  match t with
  | [] => false
  | c :: _ => is_word c
  end.

(** [\b] between the text to the left ([l], nearest character first) and
    the text to the right. *)
Definition word_boundary (l rt : str) : bool := xorb (word_at l) (word_at rt).

Section Matcher.
Context {A : Type}.
Variable ic : bool.

(** Greedy repetition with backtracking: the longest run first. *)
Fixpoint star_greedy (p : ascii -> bool) (l rt : str)
         (k : str -> str -> option A) : option A :=
  match rt with
  | c :: rt' =>
      if p c
      then match star_greedy p (c :: l) rt' k with
           | Some x => Some x
           | None => k l rt
           end
      else k l rt
  | [] => k l rt
  end.

(** Backtracking matcher in continuation-passing style.  [l] is the text
    already passed (reversed), [rt] the text ahead. *)
Fixpoint rmatch (r : regex) (l rt : str) (caps : captures)
         (k : str -> str -> captures -> option A) : option A :=
  match r with
  | REps => k l rt caps
  | RLit c =>
      match rt with
      | d :: rt' => if chr_eq ic c d then k (d :: l) rt' caps else None
      | [] => None
      end
  | RCls p =>
      match rt with
      | d :: rt' => if p d then k (d :: l) rt' caps else None
      | [] => None
      end
  | RSeq r1 r2 =>
      rmatch r1 l rt caps (fun l' rt' caps' => rmatch r2 l' rt' caps' k)
  | RAlt r1 r2 =>
      match rmatch r1 l rt caps k with
      | Some x => Some x
      | None => rmatch r2 l rt caps k
      end
  | RStar p => star_greedy p l rt (fun l' rt' => k l' rt' caps)
  | RGrp n r1 =>
      rmatch r1 l rt caps
        (fun l' rt' caps' =>
           k l' rt' ((n, rev (firstn (length l' - length l) l')) :: caps'))
  | RWordB => if word_boundary l rt then k l rt caps else None
  end.
End Matcher.

(** One match attempt at the current position: the length of the match
    and its groups.  [must_advance] refuses an empty match (the scanner
    sets it right after an empty match at the same position). *)
Definition match_here (ic : bool) (r : regex) (l rt : str)
           (must_advance : bool) : option (nat * captures) :=
  rmatch ic r l rt []
    (fun l' _ caps =>
       let n := length l' - length l in
       if must_advance && (n =? 0) then None else Some (n, caps)).

(** The matches that start at the current position: at most an empty one
    followed by a non-empty one. *)
Definition matches_at (ic : bool) (r : regex) (l rt : str)
  : list (nat * captures) :=
  match match_here ic r l rt false with
  | None => []
  | Some (O, c) =>
      (O, c) :: match match_here ic r l rt true with
                | Some m => [m]
                | None => []
                end
  | Some m => [m]
  end.

(** Characters of the text still covered by the last match found here. *)
Definition covered (ms : list (nat * captures)) : nat :=
  match rev ms with
  | [] => 0
  | (n, _) :: _ => n
  end.

(** [re.finditer]: start, length and groups of the non-overlapping matches,
    scanning left to right. *)
Fixpoint finditer_go (ic : bool) (r : regex) (l rt : str) (pos : Z)
         (skip : nat) : list (Z * nat * captures) :=
  let ms := match skip with
            | O => matches_at ic r l rt
            | S _ => []
            end in
  let here := map (fun m => (pos, fst m, snd m)) ms in
  match rt with
  | [] => here
  | c :: rt' =>
      let skip' := match skip with
                   | O => covered ms - 1
                   | S k => k
                   end in
      here ++ finditer_go ic r (c :: l) rt' (pos + 1) skip'
  end.

Definition finditer (ic : bool) (r : regex) (text : str)
  : list (Z * nat * captures) :=
  finditer_go ic r [] text 0 0.

(** [re.sub(pattern, repl, text)]: [repl] receives the groups. *)
Fixpoint sub_go (ic : bool) (r : regex) (repl : captures -> str)
         (l rt : str) (skip : nat) : str :=
  let ms := match skip with
            | O => matches_at ic r l rt
            | S _ => []
            end in
  let out := flat_map (fun m => repl (snd m)) ms in
  match rt with
  | [] => out
  | c :: rt' =>
      match skip with
      | S k => sub_go ic r repl (c :: l) rt' k
      | O =>
          match covered ms with
          | O => out ++ c :: sub_go ic r repl (c :: l) rt' 0
          | S n => out ++ sub_go ic r repl (c :: l) rt' n
          end
      end
  end.

Definition sub (ic : bool) (r : regex) (repl : captures -> str) (text : str)
  : str :=
  sub_go ic r repl [] text 0.

(** Group [n] of a match (the most recent capture). *)
Fixpoint group (n : nat) (caps : captures) : str :=
  match caps with
  | [] => []
  | (m, s) :: caps' => if Nat.eqb n m then s else group n caps'
  end.

(** [re.escape(s)] followed by compilation: the characters of [s], each
    matched literally. *)
Fixpoint lit (s : str) : regex :=
  match s with
  | [] => REps
  | [c] => RLit c
  | c :: s' => RSeq (RLit c) (lit s')
  end.

Definition plus (p : ascii -> bool) : regex := RSeq (RCls p) (RStar p).

End Re.

Import Re.

(* ===================================================================== *)
(** ** The text normaliser *)
(* ===================================================================== *)

(** [DICT_NORM_ABBREV], in insertion order. *)
Definition DICT_NORM_ABBREV : list (str * list str) :=
  [ (txt "Tp ", [txt "Tp."; txt "Tp:"]);
    (txt "Tt ", [txt "Tt."; txt "Tt:"]);
    (txt "Q ", [txt "Q."; txt "Q:"]);
    (txt "H ", [txt "H."; txt "H:"]);
    (txt "X ", [txt "X."; txt "X:"]);
    (txt "P ", [txt "P."; txt "P:"]) ].

(** [DICT_NORM_CITY_DASH], in insertion order. *)
Definition DICT_NORM_CITY_DASH : list (str * list str) :=
  [ (txt " Ba Ria - Vung Tau ",
      [txt "Ba Ria Vung Tau"; txt "Ba Ria-Vung Tau"; txt "Brvt";
       txt "Br - Vt"]);
    (txt " Phan Rang - Thap Cham ", [txt "Phan Rang Thap Cham"]);
    (txt " Thua Thien Hue ", [txt "Thua Thien - Hue"]);
    (txt " Ho Chi Minh ", [txt "Sai Gon"; txt "Tphcm"; txt "Hcm"; txt "Sg"]);
    (txt " Da Nang ", [txt "Quang Nam-Da Nang"; txt "Quang Nam - Da Nang"]) ].

Definition ADDRESS_PUNCTUATIONS : list ascii :=
  [ "."; ","; "!"; "?"; ";"; ":"; "-"; "_"; "("; ")"; "034"; "'" ]%char.

Definition one_of (cs : list ascii) (c : ascii) : bool :=
  existsb (Ascii.eqb c) cs.

(** [SPECIAL_ENDING = r"[g.;,\s]"] *)
Definition SPECIAL_ENDING : regex :=
  RCls (fun c => one_of (txt "g.;,") c || is_space c).

(** [" ".join(word.capitalize() for word in text.split()) if text else text] *)
Definition init_cap_words (text : str) : str :=
  match text with
  | [] => text
  | _ :: _ => join (txt " ") (map capitalize (split text))
  end.

(** On 7-bit text NFD normalisation is the identity, no character lies in
    the range U+0300-U+036F, and no character is in the table of accented letters,
    so none of the replacements applies. *)
Definition remove_accent (text : str) : str := text.

(** ["\b|\b".join(map(re.escape, synonyms))]: the first alternative has no
    leading [\b] and the last no trailing [\b]. *)
Fixpoint dash_tail (synonyms : list str) : regex :=
  match synonyms with
  | [] => REps
  | [s] => RSeq RWordB (lit s)
  | s :: rest => RAlt (RSeq RWordB (RSeq (lit s) RWordB)) (dash_tail rest)
  end.

Definition dash_pattern (synonyms : list str) : regex :=
  match synonyms with
  | [] => REps
  | [s] => lit s
  | s :: rest => RAlt (RSeq (lit s) RWordB) (dash_tail rest)
  end.

Definition clean_dash_address (text : str)
           (dict_norm_city_dash : list (str * list str)) : str :=
  fold_left
    (fun text kv => sub true (dash_pattern (snd kv)) (fun _ => fst kv) text)
    dict_norm_city_dash text.

(** ["|".join(map(re.escape, synonyms))] *)
Fixpoint alternatives (synonyms : list str) : regex :=
  match synonyms with
  | [] => REps
  | [s] => lit s
  | s :: rest => RAlt (lit s) (alternatives rest)
  end.

Definition spaces : regex := plus is_space.

Definition clean_abbrev_address (text : str)
           (dict_norm_abbrev : list (str * list str)) : str :=
  let text :=
    fold_left
      (fun text kv =>
         sub true (RGrp 1 (alternatives (snd kv)))
             (fun _ => capitalize (fst kv)) text)
      dict_norm_abbrev text in
  strip (sub false spaces (fun _ => txt " ") text).

(** [\b(q|quan)\s*(\d+)\b] and the like: a prefix alternative, optional
    whitespace, digits. *)
Definition unit_number (short long : str) : regex :=
  RSeq RWordB
    (RSeq (RGrp 1 (RAlt (lit short) (lit long)))
       (RSeq (RStar is_space) (RSeq (RGrp 2 (plus is_digit)) RWordB))).

(** [\bQ0+(\d+)\b] and [\bP0+(\d+)\b] *)
Definition leading_zeros (letter : ascii) : regex :=
  RSeq RWordB
    (RSeq (RLit letter)
       (RSeq (plus (Ascii.eqb "0")) (RSeq (RGrp 1 (plus is_digit)) RWordB))).

Definition clean_digit_district (text : str) : str :=
  let text :=
    sub true (unit_number (txt "q") (txt "quan"))
        (fun caps => txt "Q" ++ group 2 caps) text in
  sub false (leading_zeros "Q") (fun caps => txt "Q" ++ group 1 caps) text.

Definition clean_digit_ward (text : str) : str :=
  let text :=
    sub true (unit_number (txt "p") (txt "phuong"))
        (fun caps => txt "P" ++ group 2 caps) text in
  let text :=
    sub false
        (RSeq RWordB
           (RSeq (RCls (one_of (txt "Ff")))
              (RSeq (RGrp 1 (plus is_digit)) RWordB)))
        (fun caps => txt "P" ++ group 1 caps) text in
  sub false (leading_zeros "P") (fun caps => txt "P" ++ group 1 caps) text.

Definition remove_spare_space (text : str) : str :=
  sub false spaces (fun _ => txt " ") (strip text).

Definition remove_punctuation (text : str) (punctuations : list ascii) : str :=
  match punctuations with
  | [] => remove_spare_space text
  | _ :: _ =>
      remove_spare_space
        (sub false (RCls (one_of punctuations)) (fun _ => []) text)
  end.

Definition add_space_separator (text : str) : str :=
  let text :=
    sub false (RSeq (RStar is_space) (RSeq (RLit ",") (RStar is_space)))
        (fun _ => txt ", ") text in
  let text := sub false (RCls (one_of (txt "._-"))) (fun _ => txt " ") text in
  let text := strip (sub false spaces (fun _ => txt " ") text) in
  init_cap_words text.

Definition clean_full_address (text : str) : str :=
  let text := init_cap_words text in
  let text := remove_accent text in
  let text := clean_abbrev_address text DICT_NORM_ABBREV in
  let text := remove_spare_space text in
  let text := clean_digit_district text in
  let text := clean_digit_ward text in
  let text := clean_dash_address text DICT_NORM_CITY_DASH in
  let text := remove_punctuation text ADDRESS_PUNCTUATIONS in
  let text := add_space_separator text in
  let text := clean_digit_district text in
  let text := clean_digit_ward text in
  text.

(* ===================================================================== *)
(** ** The resolver *)
(* ===================================================================== *)

(** [matches[-1].start() if matches else -1].  The guard [if not pattern]
    of the source never fires at its call sites: they pass a compiled
    pattern object, which is always truthy. *)
Definition last_index_of_regex (text : str) (pattern : regex) : Z :=
  match rev (finditer false pattern text) with
  | [] => -1
  | (start, _, _) :: _ => start
  end.

Definition replace_last_occurrences (target_str substr replacement : str)
  : str :=
  match substr with
  | [] => target_str
  | _ :: _ =>
      let last_index := rfind target_str substr in
      if last_index =? -1 then target_str
      else slice_to target_str last_index ++ replacement
           ++ slice_from target_str (last_index + len substr)
  end%Z.

(** Outcome of a call: a value, or the [KeyError] raised by [d[k]]. *)
Inductive result (A : Type) : Type :=
| Ok (a : A)
| KeyError (k : str).
Arguments Ok {A} a.
Arguments KeyError {A} k.

Definition bind {A B : Type} (r : result A) (f : A -> result B) : result B :=
  match r with
  | Ok a => f a
  | KeyError k => KeyError k
  end.

Notation "x <- r ;; k" := (bind r (fun x => k))
  (at level 61, r at next level, right associativity).

(** The gazetteer: three dictionaries in insertion order. *)
Record province_data : Type := {
  p_id : str;
  p_name : str;
  p_words : list str;
  p_district : list str
}.

Record district_data : Type := {
  d_name : str;
  d_words : list str;
  d_province : str;
  d_ward : list str
}.

Record ward_data : Type := {
  w_name : str;
  w_words : list str
}.

Definition dict (V : Type) : Type := list (str * V).

(** [d.get(k)] *)
Fixpoint get {V : Type} (d : dict V) (k : str) : option V :=
  match d with
  | [] => None
  | (k', v) :: d' => if str_eqb k k' then Some v else get d' k
  end.

(** [d[k]] *)
Definition item {V : Type} (d : dict V) (k : str) : result V :=
  match get d k with
  | Some v => Ok v
  | None => KeyError k
  end.

(** Truth value of a string: non-empty. *)
Definition truthy (s : str) : bool :=
  match s with
  | [] => false
  | _ :: _ => true
  end.

(** The three variables every matching loop updates. *)
Record pick : Type := {
  founded : str;
  choose_word : str;
  largest_index : Z
}.

Definition no_pick : pick :=
  {| founded := []; choose_word := []; largest_index := -1 |}.

(** Body of the innermost loop: the [if] that keeps the rightmost match
    and, at equal index, the longer word. *)
Definition consider (last_index : Z) (unit word : str) (st : pick) : pick :=
  if ((last_index >? largest_index st)
      || ((last_index =? largest_index st)
          && (largest_index st >? -1)
          && (len word >? len (choose_word st))))%Z
  then {| founded := unit; choose_word := word; largest_index := last_index |}
  else st.

(** [for word in words: ...] for one unit. *)
Definition scan_words (index : str -> Z) (unit : str) (words : list str)
           (st : pick) : pick :=
  fold_left (fun st word => consider (index word) unit word st) words st.

(** [for unit, data in db.items(): for word in data['words']: ...] *)
Definition scan_items {V : Type} (index : str -> Z) (words_of : V -> list str)
           (db : dict V) (st : pick) : pick :=
  fold_left (fun st kv => scan_words index (fst kv) (words_of (snd kv)) st)
            db st.

(** [for unit in units: for word in db[unit]['words']: ...] *)
Fixpoint scan_units {V : Type} (index : str -> Z) (words_of : V -> list str)
         (db : dict V) (units : list str) (st : pick) : result pick :=
  match units with
  | [] => Ok st
  | u :: units' =>
      data <- item db u ;;
      scan_units index words_of db units' (scan_words index u (words_of data) st)
  end.

(** [re.compile(fr"{word}{special_ending}")] and [re.compile(fr"{word}")].
    Alias words are plain text (letters, digits, spaces): the pattern
    matches them literally. *)
Definition anchored (special_ending : regex) (word : str) : regex :=
  RSeq (lit word) special_ending.

Definition index_plain (address word : str) : Z := rfind address word.

Definition index_anchored (special_ending : regex) (address word : str) : Z :=
  last_index_of_regex address (anchored special_ending word).

Definition index_bare (address word : str) : Z :=
  last_index_of_regex address (lit word).

(** [next((key for key, value in db_provinces.items()
           if value['id'] == province_id), "")] *)
Fixpoint province_of_id (db_provinces : dict province_data) (province_id : str)
  : str :=
  match db_provinces with
  | [] => []
  | (key, value) :: rest =>
      if str_eqb (p_id value) province_id then key
      else province_of_id rest province_id
  end.

(** [db.get(key, {}).get('name', "")] *)
Definition name_of {V : Type} (name : V -> str) (db : dict V) (key : str) : str :=
  match get db key with
  | Some v => name v
  | None => []
  end.

(** The values the local variables of [parse_address] take on a run. *)
Record locals : Type := {
  address0 : str;          (* the normalised input and the sentinel *)
  province_pick : pick;    (* after the province loop *)
  address1 : str;          (* after the removal of the province word *)
  address2 : str;          (* after the "Thanh Pho ," step *)
  district_pick : pick;    (* after the district loop *)
  address3 : str;          (* after the removal of the district word *)
  province_key : str;      (* founded_province after the inference *)
  ward_pick : pick;        (* after the ward loop *)
  address4 : str;          (* after the removal of the ward word *)
  province : str;
  district : str;
  ward : str
}.

Definition THANH_PHO : str := txt "Thanh Pho ,".

Definition parse_locals (input_address : str)
           (db_provinces : dict province_data)
           (db_districts : dict district_data)
           (db_wards : dict ward_data)
           (special_ending : regex) : result locals :=
  let address0 := clean_full_address input_address ++ txt "," in
  (* Extract Province/City *)
  let pp := scan_items (index_plain address0) p_words db_provinces no_pick in
  let founded_province := founded pp in
  let address1 :=
    if truthy founded_province
    then replace_last_occurrences address0 (choose_word pp) []
    else address0 in
  let address2 :=
    if endswith address1 THANH_PHO then replace address1 THANH_PHO []
    else address1 in
  (* Extract District *)
  dp <- (if truthy founded_province
         then
           data <- item db_provinces founded_province ;;
           scan_units (index_anchored special_ending address2) d_words
                      db_districts (p_district data) no_pick
         else
           Ok (scan_items (index_bare address2) d_words db_districts no_pick)) ;;
  let founded_district := founded dp in
  let address3 :=
    if truthy founded_district
    then replace_last_occurrences address2 (choose_word dp) []
    else address2 in
  founded_province' <-
    (if truthy founded_district && negb (truthy founded_province)
     then
       data <- item db_districts founded_district ;;
       Ok (province_of_id db_provinces (d_province data))
     else Ok founded_province) ;;
  (* Extract Ward/Commune *)
  wp <- (if truthy founded_district
         then
           data <- item db_districts founded_district ;;
           scan_units (index_anchored special_ending address3) w_words
                      db_wards (d_ward data) no_pick
         else Ok no_pick) ;;
  let founded_ward := founded wp in
  let address4 :=
    if truthy founded_district && truthy founded_ward
    then replace_last_occurrences address3 (choose_word wp) []
    else address3 in
  Ok {| address0 := address0;
        province_pick := pp;
        address1 := address1;
        address2 := address2;
        district_pick := dp;
        address3 := address3;
        province_key := founded_province';
        ward_pick := wp;
        address4 := address4;
        province := name_of p_name db_provinces founded_province';
        district := name_of d_name db_districts founded_district;
        ward := name_of w_name db_wards founded_ward |}.

(** [address + " " + founded_ward + ", " + founded_district + ", "
     + founded_province] *)
Definition assemble (st : locals) : str :=
  address4 st ++ txt " " ++ ward st ++ txt ", " ++ district st ++ txt ", "
  ++ province st.

Definition parse_address (input_address : str)
           (db_provinces : dict province_data)
           (db_districts : dict district_data)
           (db_wards : dict ward_data)
           (special_ending : regex) : result str :=
  st <- parse_locals input_address db_provinces db_districts db_wards
                     special_ending ;;
  Ok (assemble st).

(* ===================================================================== *)
(** ** Vocabulary of the statements *)
(* ===================================================================== *)

(** [sub] occurs in [text] at index [i]. *)
Definition occurs_at (sub text : str) (i : nat) : Prop :=
  i <= length text /\ startswith sub (skipn i text) = true.

(** One turn of a matching loop on the candidate [(unit, word)]. *)
Definition step (index : str -> Z) (st : pick) (uw : str * str) : pick :=
  consider (index (snd uw)) (fst uw) (snd uw) st.

(** The candidates of a loop over [db.items()], in scan order. *)
Definition pairs_of {V : Type} (words_of : V -> list str) (db : dict V)
  : list (str * str) :=
  flat_map (fun kv => map (pair (fst kv)) (words_of (snd kv))) db.

(** The candidates of a loop over a list of unit keys, in scan order. *)
Definition unit_pairs {V : Type} (words_of : V -> list str) (db : dict V)
           (units : list str) : list (str * str) :=
  flat_map (fun u => match get db u with
                     | Some data => map (pair u) (words_of data)
                     | None => []
                     end) units.

(** [st] is what a matching loop must leave after the candidates [cs]:
    nothing when no candidate has an index above [-1]; otherwise a
    candidate of greatest index and, among those, of greatest length. *)
Definition selects (index : str -> Z) (cs : list (str * str)) (st : pick)
  : Prop :=
  (st = no_pick /\ forall u w, In (u, w) cs -> (index w <= -1)%Z)
  \/ (In (founded st, choose_word st) cs
      /\ largest_index st = index (choose_word st)
      /\ (-1 < largest_index st)%Z
      /\ forall u w, In (u, w) cs ->
           (index w <= largest_index st)%Z
           /\ (index w = largest_index st ->
               (len w <= len (choose_word st))%Z)).

(** Declarative reading of a pattern: with [l] to the left (reversed),
    the pattern matches [m], is followed by [rt], and records the groups
    [caps] (most recent first). *)
Inductive den (ic : bool) : regex -> str -> str -> str -> captures -> Prop :=
| den_eps l rt : den ic REps l [] rt []
| den_lit c d l rt : chr_eq ic c d = true -> den ic (RLit c) l [d] rt []
| den_cls (p : ascii -> bool) d l rt : p d = true -> den ic (RCls p) l [d] rt []
| den_seq r1 r2 l m1 m2 rt c1 c2 :
    den ic r1 l m1 (m2 ++ rt) c1 ->
    den ic r2 (rev m1 ++ l) m2 rt c2 ->
    den ic (RSeq r1 r2) l (m1 ++ m2) rt (c2 ++ c1)
| den_alt_l r1 r2 l m rt c : den ic r1 l m rt c -> den ic (RAlt r1 r2) l m rt c
| den_alt_r r1 r2 l m rt c : den ic r2 l m rt c -> den ic (RAlt r1 r2) l m rt c
| den_star (p : ascii -> bool) l m rt :
    Forall (fun d => p d = true) m -> den ic (RStar p) l m rt []
| den_grp n r l m rt c : den ic r l m rt c -> den ic (RGrp n r) l m rt ((n, m) :: c)
| den_wordb l rt : word_boundary l rt = true -> den ic RWordB l [] rt [].

(** What a successful run of [parse_address] establishes, statement by
    statement, about the values of its local variables. *)
Definition run_of (input_address : str)
           (db_provinces : dict province_data)
           (db_districts : dict district_data)
           (db_wards : dict ward_data)
           (special_ending : regex) (st : locals) : Prop :=
  let pp := province_pick st in
  let dp := district_pick st in
  let wp := ward_pick st in
  address0 st = clean_full_address input_address ++ txt ","
  /\ pp = scan_items (index_plain (address0 st)) p_words db_provinces no_pick
  /\ address1 st
     = (if truthy (founded pp)
        then replace_last_occurrences (address0 st) (choose_word pp) []
        else address0 st)
  /\ address2 st
     = (if endswith (address1 st) THANH_PHO
        then replace (address1 st) THANH_PHO []
        else address1 st)
  /\ (if truthy (founded pp)
      then exists data,
          get db_provinces (founded pp) = Some data
          /\ scan_units (index_anchored special_ending (address2 st)) d_words
                        db_districts (p_district data) no_pick = Ok dp
      else dp = scan_items (index_bare (address2 st)) d_words db_districts
                           no_pick)
  /\ address3 st
     = (if truthy (founded dp)
        then replace_last_occurrences (address2 st) (choose_word dp) []
        else address2 st)
  /\ (if truthy (founded dp) && negb (truthy (founded pp))
      then exists data,
          get db_districts (founded dp) = Some data
          /\ province_key st = province_of_id db_provinces (d_province data)
      else province_key st = founded pp)
  /\ (if truthy (founded dp)
      then exists data,
          get db_districts (founded dp) = Some data
          /\ scan_units (index_anchored special_ending (address3 st)) w_words
                        db_wards (d_ward data) no_pick = Ok wp
      else wp = no_pick)
  /\ address4 st
     = (if truthy (founded dp) && truthy (founded wp)
        then replace_last_occurrences (address3 st) (choose_word wp) []
        else address3 st)
  /\ province st = name_of p_name db_provinces (province_key st)
  /\ district st = name_of d_name db_districts (founded dp)
  /\ ward st = name_of w_name db_wards (founded wp).


(** A small gazetteer used by the examples. *)
Definition ex_provinces : dict province_data :=
  [ (txt "hcm", {| p_id := txt "79"; p_name := txt "Ho Chi Minh";
                   p_words := [txt "Ho Chi Minh"; txt "Hcm"];
                   p_district := [txt "q1"; txt "tb"] |});
    (txt "hn", {| p_id := txt "01"; p_name := txt "Ha Noi";
                  p_words := [txt "Ha Noi"];
                  p_district := [txt "bd"] |}) ].

Definition ex_districts : dict district_data :=
  [ (txt "q1", {| d_name := txt "Quan 1"; d_words := [txt "Q1"; txt "Quan 1"];
                  d_province := txt "79"; d_ward := [txt "bn"] |});
    (txt "tb", {| d_name := txt "Tan Binh"; d_words := [txt "Tan Binh"];
                  d_province := txt "79"; d_ward := [] |});
    (txt "bd", {| d_name := txt "Ba Dinh"; d_words := [txt "Ba Dinh"];
                  d_province := txt "01"; d_ward := [] |}) ].

Definition ex_wards : dict ward_data :=
  [ (txt "bn", {| w_name := txt "Ben Nghe";
                  w_words := [txt "Ben Nghe"; txt "P1"] |}) ].

Definition ex_parse (input_address : string) : result str :=
  parse_address (txt input_address) ex_provinces ex_districts ex_wards
                SPECIAL_ENDING.

Definition ex_locals (input_address : string) : result locals :=
  parse_locals (txt input_address) ex_provinces ex_districts ex_wards
               SPECIAL_ENDING.

(** [s] is not empty and its last character is not whitespace. *)
Definition ends_nonspace (s : str) : Prop :=
  exists pre z, s = pre ++ [z] /\ is_space z = false.

(** [t] is empty or ends with a character that is not whitespace. *)
Definition no_trailing_space (t : str) : Prop := t = [] \/ ends_nonspace t.

(** [t] holds no comma, except possibly as its last character. *)
Definition comma_only_last (t : str) : Prop :=
  exists body, Forall (fun c => c <> ","%char) body
               /\ (t = body \/ t = body ++ [","%char]).

(** [c] is none of the characters of [ADDRESS_PUNCTUATIONS]. *)
Definition not_punct (c : ascii) : Prop := one_of ADDRESS_PUNCTUATIONS c = false.

(** The words [split] returns are non-empty and free of whitespace. *)
Definition token (w : str) : Prop :=
  w <> [] /\ Forall (fun c => is_space c = false) w.



(** A gazetteer with an alias that overlaps itself ("Ba Ba" in
    "Ba Ba Ba"). *)
Definition ov_provinces : dict province_data :=
  [ (txt "p1", {| p_id := txt "1"; p_name := txt "Tinh Mot";
                  p_words := [txt "Tinh Mot"];
                  p_district := [txt "d1"; txt "d2"] |}) ].

Definition ov_districts : dict district_data :=
  [ (txt "d1", {| d_name := txt "Huyen Ba Ba"; d_words := [txt "Ba Ba"];
                  d_province := txt "1"; d_ward := [] |});
    (txt "d2", {| d_name := txt "Huyen Khac"; d_words := [txt "a Ba B"];
                  d_province := txt "1"; d_ward := [] |}) ].

(** [text] starts with [w], letter case ignored when [ic] is set. *)
Fixpoint starts (ic : bool) (w text : str) : bool :=
  match w, text with
  | [], _ => true
  | x :: w', y :: t' => chr_eq ic x y && starts ic w' t'
  | _ :: _, [] => false
  end.

(** Abbreviation expansion read as a plain scan: left to right, wherever
    the text ahead starts with a variant (case ignored), whatever stands
    before or after it, the capitalised key is written and the variant is
    skipped. *)
Fixpoint expand_go (key : str) (synonyms : list str) (text : str)
         (skip : nat) : str :=
  match text with
  | [] => []
  | c :: t =>
      match skip with
      | S k => expand_go key synonyms t k
      | O =>
          match find (fun v => starts true v text) synonyms with
          | Some v => capitalize key ++ expand_go key synonyms t (length v - 1)
          | None => c :: expand_go key synonyms t 0
          end
      end
  end.

Definition expand_abbrev (text : str) (kv : str * list str) : str :=
  expand_go (fst kv) (snd kv) text 0.

(** Every whitespace character of [t] is a single blank followed by a
    character that is not whitespace. *)
Fixpoint single_spaced (t : str) : bool :=
  match t with
  | [] => true
  | c :: t' =>
      (if is_space c
       then Ascii.eqb c " "
            && match t' with
               | d :: _ => negb (is_space d)
               | [] => false
               end
       else true)
      && single_spaced t'
  end.

(** [t] does not begin with whitespace. *)
Definition no_leading_space (t : str) : Prop :=
  match t with
  | [] => True
  | c :: _ => is_space c = false
  end.


(** [k] is a key a unit lists but its dictionary lacks. *)
Definition dangling_key (db_provinces : dict province_data)
           (db_districts : dict district_data) (db_wards : dict ward_data)
           (k : str) : Prop :=
  (exists key data,
      In (key, data) db_provinces /\ In k (p_district data)
      /\ get db_districts k = None)
  \/ (exists key data,
         In (key, data) db_districts /\ In k (d_ward data)
         /\ get db_wards k = None).


(** [st] holds the first candidate of [cs], in scan order, that no other
    candidate beats: every candidate before it has a smaller index or the
    same index and a shorter word; every candidate after it has a smaller
    index or the same index and a word that is not longer. *)
Definition first_best (index : str -> Z) (cs : list (str * str)) (st : pick)
  : Prop :=
  exists pre post,
    cs = pre ++ (founded st, choose_word st) :: post
    /\ largest_index st = index (choose_word st)
    /\ (-1 < largest_index st)%Z
    /\ (forall u w, In (u, w) pre ->
          (index w < largest_index st)%Z
          \/ (index w = largest_index st
              /\ (len w < len (choose_word st))%Z))
    /\ (forall u w, In (u, w) post ->
          (index w < largest_index st)%Z
          \/ (index w = largest_index st
              /\ (len w <= len (choose_word st))%Z)).

(** Two districts of different provinces that share an alias. *)
Definition tie_districts : dict district_data :=
  [ (txt "tb", {| d_name := txt "Tan Binh"; d_words := [txt "Tan Binh"];
                  d_province := txt "79"; d_ward := [] |});
    (txt "tb2", {| d_name := txt "Tan Binh"; d_words := [txt "Tan Binh"];
                   d_province := txt "01"; d_ward := [] |}) ].

(** At index [i] of [text] stands [w] followed by a character of the
    class [p]. *)
Definition terminated_at (p : ascii -> bool) (w text : str) (i : nat) : Prop :=
  occurs_at w text i
  /\ exists d, nth_error text (i + length w) = Some d /\ p d = true.

(** Length of the longest prefix of [t] made of characters of [p]. *)
Fixpoint span_len (p : ascii -> bool) (t : str) : nat :=
  match t with
  | c :: t' => if p c then S (span_len p t') else 0
  | [] => 0
  end.

(** Every run of whitespace replaced by one blank; [in_run] tells that
    the character before [t] was whitespace. *)
Fixpoint collapse_go (in_run : bool) (t : str) : str :=
  match t with
  | [] => []
  | c :: t' =>
      if is_space c
      then if in_run then collapse_go true t'
           else " "%char :: collapse_go true t'
      else c :: collapse_go false t'
  end.


(* ===================================================================== *)
(** ** String primitives: occurrences and [rfind] *)
(* ===================================================================== *)

Lemma eqb_ascii_true (a b : ascii) : Ascii.eqb a b = true -> a = b.
Proof. apply Ascii.eqb_eq. Qed.

Lemma startswith_app (p s : str) : startswith p (p ++ s) = true.
Proof.
  induction p as [|x p IH]; simpl; [reflexivity|].
  now rewrite Ascii.eqb_refl, IH.
Qed.

Lemma startswith_split (p t : str) :
  startswith p t = true -> t = p ++ skipn (length p) t.
Proof.
  revert t; induction p as [|x p IH]; intros [|y t] H; simpl in *;
    try reflexivity; try discriminate.
  apply andb_true_iff in H as [Hxy H].
  apply eqb_ascii_true in Hxy; subst y.
  f_equal; now apply IH.
Qed.

Lemma startswith_iff (p t : str) :
  startswith p t = true <-> exists s, t = p ++ s.
Proof.
  split.
  - intros H; eexists; now apply startswith_split.
  - intros [s ->]; apply startswith_app.
Qed.

Lemma startswith_length (p t : str) :
  startswith p t = true -> length p <= length t.
Proof.
  intros H; apply startswith_split in H.
  apply (f_equal (@length ascii)) in H.
  rewrite length_app in H; lia.
Qed.

Lemma occurs_at_split (sub text : str) (i : nat) :
  occurs_at sub text i ->
  text = firstn i text ++ sub ++ skipn (i + length sub) text.
Proof.
  intros [_ H]; apply startswith_split in H.
  rewrite skipn_skipn in H.
  rewrite <- (firstn_skipn i text) at 1.
  rewrite (Nat.add_comm i); now rewrite <- H.
Qed.

Lemma rfind_from_spec (sub text : str) : forall pos best,
  (rfind_from pos best text sub = best
   /\ forall i, i <= length text -> startswith sub (skipn i text) = false)
  \/ (exists i, rfind_from pos best text sub = (pos + Z.of_nat i)%Z
                /\ occurs_at sub text i
                /\ forall j, i < j <= length text ->
                             startswith sub (skipn j text) = false).
Proof.
  induction text as [|c t IH]; intros pos best; simpl rfind_from.
  - destruct (startswith sub []) eqn:E.
    + right; exists 0. split; [simpl; lia|]. split.
      * split; [simpl; lia | exact E].
      * simpl; intros j Hj; lia.
    + left; split; [reflexivity|].
      simpl; intros i Hi. assert (i = 0) by lia; subst; exact E.
  - destruct (IH (pos + 1)%Z (if startswith sub (c :: t) then pos else best))
      as [[Hr Hnone] | [i [Hr [[Hi Hs] Hlast]]]].
    + rewrite Hr. destruct (startswith sub (c :: t)) eqn:E.
      * right; exists 0. split; [simpl; lia|]. split.
        -- split; [simpl; lia | exact E].
        -- intros [|j] Hj; [lia|]. simpl in *; apply Hnone; lia.
      * left; split; [reflexivity|].
        intros [|i] Hi; simpl in *; [exact E | apply Hnone; lia].
    + right; exists (S i). split; [rewrite Hr; lia|]. split.
      * split; [simpl; lia | exact Hs].
      * intros [|j] Hj; [lia|]. simpl in *; apply Hlast; lia.
Qed.

Lemma rfind_spec (text sub : str) :
  (rfind text sub = (-1)%Z
   /\ forall i, i <= length text -> startswith sub (skipn i text) = false)
  \/ (exists i, rfind text sub = Z.of_nat i /\ occurs_at sub text i
                /\ forall j, i < j <= length text ->
                             startswith sub (skipn j text) = false).
Proof.
  destruct (rfind_from_spec sub text 0 (-1)) as [H | [i H]]; [now left|].
  right; exists i; exact H.
Qed.

Lemma rfind_lower (text sub : str) : (-1 <= rfind text sub)%Z.
Proof.
  destruct (rfind_spec text sub) as [[H _] | [i [H _]]]; lia.
Qed.

Lemma rfind_none (text sub : str) (i : nat) :
  rfind text sub = (-1)%Z -> ~ occurs_at sub text i.
Proof.
  intros H [Hi Hs].
  destruct (rfind_spec text sub) as [[_ Hn] | [j [Hj _]]]; [|lia].
  rewrite (Hn i Hi) in Hs; discriminate.
Qed.

(** [rfind] is at or to the right of every occurrence. *)
Lemma rfind_rightmost (text sub : str) (i : nat) :
  occurs_at sub text i -> (Z.of_nat i <= rfind text sub)%Z.
Proof.
  intros [Hi Hs].
  destruct (rfind_spec text sub) as [[_ Hn] | [j [Hj [_ Hlast]]]].
  - rewrite (Hn i Hi) in Hs; discriminate.
  - rewrite Hj. destruct (Nat.le_gt_cases i j) as [|Hlt]; [lia|].
    rewrite (Hlast i) in Hs; [discriminate | lia].
Qed.

Lemma rfind_found (text sub : str) :
  rfind text sub <> (-1)%Z ->
  exists i, rfind text sub = Z.of_nat i /\ occurs_at sub text i
            /\ forall j, i < j -> ~ occurs_at sub text j.
Proof.
  intros H.
  destruct (rfind_spec text sub) as [[Hn _] | [i [Hi [Ho Hlast]]]]; [easy|].
  exists i; repeat split; try apply Ho; auto.
  intros j Hj [Hjl Hs]. rewrite Hlast in Hs; [discriminate | lia].
Qed.


(* ===================================================================== *)
(** ** The matching loops *)
(* ===================================================================== *)

Lemma scan_words_step (index : str -> Z) (u : str) (ws : list str) (st : pick) :
  scan_words index u ws st = fold_left (step index) (map (pair u) ws) st.
Proof.
  unfold scan_words. revert st.
  induction ws as [|w ws IH]; intros st; simpl; [reflexivity | apply IH].
Qed.

Lemma scan_items_step {V : Type} (index : str -> Z) (words_of : V -> list str)
      (db : dict V) (st : pick) :
  scan_items index words_of db st
  = fold_left (step index) (pairs_of words_of db) st.
Proof.
  unfold scan_items, pairs_of. revert st.
  induction db as [|kv db IH]; intros st; simpl; [reflexivity|].
  rewrite fold_left_app, IH. now rewrite scan_words_step.
Qed.

Lemma scan_units_step {V : Type} (index : str -> Z) (words_of : V -> list str)
      (db : dict V) (units : list str) : forall st st',
  scan_units index words_of db units st = Ok st' ->
  st' = fold_left (step index) (unit_pairs words_of db units) st
  /\ forall u, In u units -> exists data, get db u = Some data.
Proof.
  induction units as [|u units IH]; intros st st' H; simpl in *.
  - injection H as <-. split; [reflexivity | intros u []].
  - unfold item in H. destruct (get db u) as [data|] eqn:E; simpl in H;
      [|discriminate].
    apply IH in H as [-> Hall]. split.
    + now rewrite fold_left_app, scan_words_step.
    + intros u' [<-|Hin]; [now exists data | now apply Hall].
Qed.

Lemma in_unit_pairs {V : Type} (words_of : V -> list str) (db : dict V)
      (units : list str) (u w : str) :
  In (u, w) (unit_pairs words_of db units) <->
  In u units /\ exists data, get db u = Some data /\ In w (words_of data).
Proof.
  unfold unit_pairs. rewrite in_flat_map. split.
  - intros [u' [Hu Hin]]. destruct (get db u') as [data|] eqn:E; [|destruct Hin].
    apply in_map_iff in Hin as [w' [Heq Hw]]. injection Heq as <- <-.
    split; [assumption | now exists data].
  - intros [Hu [data [E Hw]]]. exists u. split; [assumption|].
    rewrite E. now apply in_map.
Qed.

Lemma in_pairs_of {V : Type} (words_of : V -> list str) (db : dict V)
      (u w : str) :
  In (u, w) (pairs_of words_of db) <->
  exists data, In (u, data) db /\ In w (words_of data).
Proof.
  unfold pairs_of. rewrite in_flat_map. split.
  - intros [[k data] [Hkv Hin]]. simpl in Hin.
    apply in_map_iff in Hin as [w' [Heq Hw]]. injection Heq as <- <-.
    now exists data.
  - intros [data [Hkv Hw]]. exists (u, data). split; [assumption|].
    simpl. now apply in_map.
Qed.

Lemma selects_step (index : str -> Z) (cs : list (str * str)) (st : pick)
      (uw : str * str) :
  selects index cs st -> selects index (cs ++ [uw]) (step index st uw).
Proof.
  destruct uw as [u w]. unfold step, consider; simpl.
  intros [[-> Hnone] | [Hin [Hidx [Hpos Hmax]]]].
  - (* nothing selected so far *)
    simpl. destruct (Z.gtb_spec (index w) (-1)) as [Hgt|Hle]; simpl.
    + right; simpl. split; [apply in_or_app; right; now left|].
      split; [reflexivity|]. split; [lia|].
      intros u' w' Hin'. apply in_app_or in Hin' as [Hin'|[Heq|[]]].
      * specialize (Hnone _ _ Hin'). lia.
      * injection Heq as <- <-. lia.
    + rewrite andb_false_r; simpl.
      left. split; [reflexivity|].
      intros u' w' Hin'. apply in_app_or in Hin' as [Hin'|[Heq|[]]].
      * now apply (Hnone u').
      * injection Heq as <- <-. lia.
  - (* a candidate is selected *)
    destruct (Z.gtb_spec (index w) (largest_index st)) as [Hgt|Hle]; simpl.
    + right; simpl. split; [apply in_or_app; right; now left|].
      split; [reflexivity|]. split; [lia|].
      intros u' w' Hin'. apply in_app_or in Hin' as [Hin'|[Heq|[]]].
      * destruct (Hmax _ _ Hin'). lia.
      * injection Heq as <- <-. lia.
    + destruct (Z.eqb_spec (index w) (largest_index st)) as [Heq|Hne]; simpl.
      * destruct (Z.gtb_spec (largest_index st) (-1)) as [_|Hbad]; [|lia].
        simpl.
        destruct (Z.gtb_spec (len w) (len (choose_word st))) as [Hlen|Hlen].
        -- right; simpl. split; [apply in_or_app; right; now left|].
           split; [reflexivity|]. split; [lia|].
           intros u' w' Hin'. apply in_app_or in Hin' as [Hin'|[Heq'|[]]].
           ++ destruct (Hmax _ _ Hin') as [H1 H2]. split; [lia|].
              intros E. rewrite Heq in E. specialize (H2 E). lia.
           ++ injection Heq' as <- <-. lia.
        -- right. split; [apply in_or_app; now left|].
           split; [assumption|]. split; [assumption|].
           intros u' w' Hin'. apply in_app_or in Hin' as [Hin'|[Heq'|[]]].
           ++ now apply (Hmax u').
           ++ injection Heq' as <- <-. lia.
      * right. split; [apply in_or_app; now left|].
        split; [assumption|]. split; [assumption|].
        intros u' w' Hin'. apply in_app_or in Hin' as [Hin'|[Heq'|[]]].
        -- now apply (Hmax u').
        -- injection Heq' as <- <-. lia.
Qed.

Lemma selects_fold (index : str -> Z) (cs : list (str * str)) :
  forall pre st,
    selects index pre st ->
    selects index (pre ++ cs) (fold_left (step index) cs st).
Proof.
  induction cs as [|uw cs IH]; intros pre st H; simpl.
  - now rewrite app_nil_r.
  - replace (pre ++ uw :: cs) with ((pre ++ [uw]) ++ cs)
      by (now rewrite <- app_assoc).
    apply IH. now apply selects_step.
Qed.

(** A matching loop started afresh selects among its candidates. *)
Lemma selects_loop (index : str -> Z) (cs : list (str * str)) :
  selects index cs (fold_left (step index) cs no_pick).
Proof.
  apply (selects_fold index cs [] no_pick).
  left. split; [reflexivity | intros u w []].
Qed.

(** A loop that found a unit found it through a word of index above [-1]. *)
Lemma selects_truthy (index : str -> Z) (cs : list (str * str)) (st : pick) :
  selects index cs st -> truthy (founded st) = true ->
  In (founded st, choose_word st) cs
  /\ largest_index st = index (choose_word st)
  /\ (-1 < index (choose_word st))%Z.
Proof.
  intros [[-> _] | [Hin [Hidx [Hpos _]]]] Ht; [discriminate|].
  repeat split; auto. now rewrite <- Hidx.
Qed.

(* ===================================================================== *)
(** ** The matcher *)
(* ===================================================================== *)

Section MatcherFacts.
Context {A : Type}.
Variable ic : bool.

Lemma star_greedy_sound (p : ascii -> bool) (k : str -> str -> option A) :
  forall rt0 l x,
    star_greedy p l rt0 k = Some x ->
    exists m rt, rt0 = m ++ rt /\ Forall (fun d => p d = true) m
                 /\ k (rev m ++ l) rt = Some x.
Proof.
  induction rt0 as [|c rt0 IH]; intros l x H; simpl in H.
  - exists [], []. auto.
  - destruct (p c) eqn:Hp.
    + destruct (star_greedy p (c :: l) rt0 k) as [y|] eqn:E.
      * injection H as <-. apply IH in E as [m [rt [-> [Hm Hk]]]].
        exists (c :: m), rt. repeat split; auto.
        simpl. now rewrite <- app_assoc.
      * exists [], (c :: rt0). auto.
    + exists [], (c :: rt0). auto.
Qed.

(** Whatever the matcher answers, it answers through its continuation
    at a split of the text that the pattern denotes. *)
Lemma rmatch_sound (r : regex) :
  forall l rt0 caps (k : str -> str -> captures -> option A) x,
    rmatch ic r l rt0 caps k = Some x ->
    exists m rt c, rt0 = m ++ rt /\ den ic r l m rt c
                   /\ k (rev m ++ l) rt (c ++ caps) = Some x.
Proof.
  induction r as [ |c|p|r1 IH1 r2 IH2|r1 IH1 r2 IH2|p|n r IH| ];
    intros l rt0 caps k x H; simpl in H.
  - exists [], rt0, []. repeat split; auto. constructor.
  - destruct rt0 as [|d rt]; [discriminate|].
    destruct (chr_eq ic c d) eqn:E; [|discriminate].
    exists [d], rt, []. repeat split; auto. now constructor.
  - destruct rt0 as [|d rt]; [discriminate|].
    destruct (p d) eqn:E; [|discriminate].
    exists [d], rt, []. repeat split; auto. now constructor.
  - apply IH1 in H as [m1 [rt1 [c1 [-> [D1 H]]]]].
    apply IH2 in H as [m2 [rt [c2 [-> [D2 H]]]]].
    exists (m1 ++ m2), rt, (c2 ++ c1). repeat split.
    + now rewrite app_assoc.
    + now constructor.
    + now rewrite rev_app_distr, <- !app_assoc.
  - destruct (rmatch ic r1 l rt0 caps k) as [y|] eqn:E.
    + injection H as <-. apply IH1 in E as [m [rt [c [-> [D H]]]]].
      exists m, rt, c. repeat split; auto. now apply den_alt_l.
    + apply IH2 in H as [m [rt [c [-> [D H]]]]].
      exists m, rt, c. repeat split; auto. now apply den_alt_r.
  - apply star_greedy_sound in H as [m [rt [-> [Hm H]]]].
    exists m, rt, []. repeat split; auto. now constructor.
  - apply IH in H as [m [rt [c [-> [D H]]]]].
    exists m, rt, ((n, m) :: c). repeat split; auto.
    + now constructor.
    + rewrite length_app, length_rev in H.
      replace (length m + length l - length l) with (length m) in H by lia.
      rewrite <- (length_rev m) in H at 1.
      rewrite firstn_app, firstn_all, Nat.sub_diag in H. simpl in H.
      now rewrite app_nil_r, rev_involutive in H.
  - destruct (word_boundary l rt0) eqn:E; [|discriminate].
    exists [], rt0, []. repeat split; auto. now constructor.
Qed.
End MatcherFacts.

Lemma match_here_sound (ic : bool) (r : regex) (l rt0 : str) (ma : bool)
      (n : nat) (caps : captures) :
  match_here ic r l rt0 ma = Some (n, caps) ->
  exists m rt, rt0 = m ++ rt /\ den ic r l m rt caps /\ n = length m
               /\ (ma = true -> n <> 0).
Proof.
  unfold match_here. intros H.
  apply rmatch_sound in H as [m [rt [c [-> [D H]]]]].
  rewrite length_app, length_rev, app_nil_r in H.
  replace (length m + length l - length l) with (length m) in H by lia.
  destruct (ma && (length m =? 0)) eqn:E; [discriminate|].
  injection H as <- <-. exists m, rt. repeat split; auto.
  intros -> Hz. rewrite Hz in E. discriminate.
Qed.

Lemma matches_at_sound (ic : bool) (r : regex) (l rt : str)
      (m : nat * captures) :
  In m (matches_at ic r l rt) ->
  exists ma, match_here ic r l rt ma = Some m.
Proof.
  unfold matches_at.
  destruct (match_here ic r l rt false) as [[[|n] c]|] eqn:E.
  - intros [<-|Hin]; [now exists false|].
    destruct (match_here ic r l rt true) as [m'|] eqn:E'; [|destruct Hin].
    destruct Hin as [<-|[]]. now exists true.
  - intros [<-|[]]. now exists false.
  - intros [].
Qed.

(** Every match [finditer] reports is a match of the pattern at the
    position it reports. *)
Lemma finditer_go_sound (ic : bool) (r : regex) (rt : str) :
  forall l pos skip s n c,
    In (s, n, c) (finditer_go ic r l rt pos skip) ->
    exists i ma,
      s = (pos + Z.of_nat i)%Z /\ i <= length rt
      /\ match_here ic r (rev (firstn i rt) ++ l) (skipn i rt) ma = Some (n, c).
Proof.
  induction rt as [|d rt IH]; intros l pos skip s n c Hin; simpl in Hin.
  - destruct skip; [|destruct Hin].
    apply in_map_iff in Hin as [m [Heq Hm]]. injection Heq as <- <- <-.
    apply matches_at_sound in Hm as [ma Hm].
    exists 0, ma. simpl. repeat split; auto; try lia.
    now destruct m.
  - apply in_app_or in Hin as [Hin|Hin].
    + destruct skip; [|destruct Hin].
      apply in_map_iff in Hin as [m [Heq Hm]]. injection Heq as <- <- <-.
      apply matches_at_sound in Hm as [ma Hm].
      exists 0, ma. simpl. repeat split; auto; try lia.
      now destruct m.
    + apply IH in Hin as [i [ma [-> [Hi Hm]]]].
      exists (S i), ma. simpl. repeat split; try lia.
      now rewrite <- app_assoc.
Qed.

Lemma last_index_of_regex_sound (text : str) (r : regex) :
  last_index_of_regex text r <> (-1)%Z ->
  exists i ma n c,
    last_index_of_regex text r = Z.of_nat i /\ i <= length text
    /\ match_here false r (rev (firstn i text)) (skipn i text) ma = Some (n, c).
Proof.
  unfold last_index_of_regex, finditer.
  destruct (rev (finditer_go false r [] text 0 0)) as [|[[s n] c] ms] eqn:E;
    [easy|].
  intros _.
  assert (Hin : In (s, n, c) (finditer_go false r [] text 0 0)).
  { apply in_rev. rewrite E. now left. }
  apply finditer_go_sound in Hin as [i [ma [-> [Hi Hm]]]].
  rewrite app_nil_r in Hm. exists i, ma, n, c. repeat split; auto.
Qed.

(** Inversion of the declarative reading, one lemma per constructor. *)
Lemma den_eps_inv ic l m rt c :
  den ic REps l m rt c -> m = [] /\ c = [].
Proof. intros D; inversion D; auto. Qed.

Lemma den_lit_inv ic x l m rt c :
  den ic (RLit x) l m rt c -> exists d, m = [d] /\ c = [] /\ chr_eq ic x d = true.
Proof. intros D; inversion D; subst; eauto. Qed.

Lemma den_cls_inv ic p l m rt c :
  den ic (RCls p) l m rt c -> exists d, m = [d] /\ c = [] /\ p d = true.
Proof. intros D; inversion D; subst; eauto. Qed.

Lemma den_seq_inv ic r1 r2 l m rt c :
  den ic (RSeq r1 r2) l m rt c ->
  exists m1 m2 c1 c2,
    m = m1 ++ m2 /\ c = c2 ++ c1
    /\ den ic r1 l m1 (m2 ++ rt) c1 /\ den ic r2 (rev m1 ++ l) m2 rt c2.
Proof. intros D; inversion D; subst. do 4 eexists; eauto. Qed.


Lemma den_star_inv ic p l m rt c :
  den ic (RStar p) l m rt c -> Forall (fun d => p d = true) m /\ c = [].
Proof. intros D; inversion D; subst; auto. Qed.

Lemma den_grp_inv ic n r l m rt c :
  den ic (RGrp n r) l m rt c -> exists c', c = (n, m) :: c' /\ den ic r l m rt c'.
Proof. intros D; inversion D; subst; eauto. Qed.

Lemma den_wordb_inv ic l m rt c :
  den ic RWordB l m rt c -> m = [] /\ c = [] /\ word_boundary l rt = true.
Proof. intros D; inversion D; subst; auto. Qed.

(** A literal pattern matches exactly where the text starts with it. *)
Lemma den_lit_startswith (w : str) : forall l m rt c,
  den false (lit w) l m rt c -> m = w.
Proof.
  induction w as [|x w IH]; intros l m rt c D.
  - now apply den_eps_inv in D.
  - destruct w as [|y w].
    + apply den_lit_inv in D as [d [-> [_ E]]].
      apply eqb_ascii_true in E. now subst.
    + change (lit (x :: y :: w)) with (RSeq (RLit x) (lit (y :: w))) in D.
      apply den_seq_inv in D as [m1 [m2 [c1 [c2 [-> [_ [D1 D2]]]]]]].
      apply den_lit_inv in D1 as [d [-> [_ E]]].
      apply eqb_ascii_true in E. subst d.
      apply IH in D2. now subst.
Qed.

Lemma match_anchored_occurs (special_ending : regex) (w l rt : str)
      (ma : bool) (n : nat) (c : captures) :
  match_here false (anchored special_ending w) l rt ma = Some (n, c) ->
  startswith w rt = true.
Proof.
  intros H. apply match_here_sound in H as [m [rt' [-> [D _]]]].
  unfold anchored in D.
  apply den_seq_inv in D as [m1 [m2 [c1 [c2 [-> [_ [D1 _]]]]]]].
  apply den_lit_startswith in D1. subst m1.
  rewrite <- app_assoc. apply startswith_app.
Qed.

Lemma match_lit_occurs (w l rt : str) (ma : bool) (n : nat) (c : captures) :
  match_here false (lit w) l rt ma = Some (n, c) ->
  startswith w rt = true.
Proof.
  intros H. apply match_here_sound in H as [m [rt' [-> [D _]]]].
  apply den_lit_startswith in D. subst m. apply startswith_app.
Qed.

(** The index a regex stage computes for a word is the index of an
    occurrence of the word, so it is at or to the left of [rfind]. *)
Lemma index_anchored_occurs (special_ending : regex) (address word : str) :
  index_anchored special_ending address word <> (-1)%Z ->
  exists i, index_anchored special_ending address word = Z.of_nat i
            /\ occurs_at word address i.
Proof.
  intros H. apply last_index_of_regex_sound in H as [i [ma [n [c [E [Hi Hm]]]]]].
  exists i. split; [exact E|]. split; [exact Hi|].
  now apply match_anchored_occurs in Hm.
Qed.

Lemma index_bare_occurs (address word : str) :
  index_bare address word <> (-1)%Z ->
  exists i, index_bare address word = Z.of_nat i /\ occurs_at word address i.
Proof.
  intros H. apply last_index_of_regex_sound in H as [i [ma [n [c [E [Hi Hm]]]]]].
  exists i. split; [exact E|]. split; [exact Hi|].
  now apply match_lit_occurs in Hm.
Qed.

(* ===================================================================== *)
(** ** Runs of [parse_address] *)
(* ===================================================================== *)

Lemma item_ok {V : Type} (d : dict V) (k : str) (v : V) :
  item d k = Ok v -> get d k = Some v.
Proof.
  unfold item. destruct (get d k); intros H; [now injection H as -> | discriminate].
Qed.

Lemma Ok_inj {A : Type} (a b : A) : Ok a = Ok b -> a = b.
Proof. intros H; now injection H. Qed.

Lemma bind_ok {A B : Type} (r : result A) (f : A -> result B) (b : B) :
  bind r f = Ok b -> exists a, r = Ok a /\ f a = Ok b.
Proof.
  destruct r as [a|k]; simpl; intros H; [now exists a | discriminate].
Qed.

Lemma parse_locals_run input_address db_provinces db_districts db_wards
      special_ending st :
  parse_locals input_address db_provinces db_districts db_wards special_ending
  = Ok st ->
  run_of input_address db_provinces db_districts db_wards special_ending st.
Proof.
  unfold parse_locals. intros H.
  apply bind_ok in H as [dp [Hdp H]].
  apply bind_ok in H as [pk [Hpk H]].
  apply bind_ok in H as [wp [Hwp H]].
  apply Ok_inj in H. subst st. unfold run_of.
  cbn [address0 province_pick address1 address2 district_pick address3
       province_key ward_pick address4 province district ward].
  repeat split.
  - destruct (truthy (founded _)); [|now apply Ok_inj in Hdp].
    apply bind_ok in Hdp as [data [Hd Hdp]]. apply item_ok in Hd. eauto.
  - destruct (truthy (founded dp) && negb (truthy (founded _)));
      [|now apply Ok_inj in Hpk].
    apply bind_ok in Hpk as [data [Hd Hpk]]. apply item_ok in Hd.
    apply Ok_inj in Hpk. eauto.
  - destruct (truthy (founded dp)); [|now apply Ok_inj in Hwp].
    apply bind_ok in Hwp as [data [Hd Hwp]]. apply item_ok in Hd. eauto.
Qed.

Lemma parse_address_run input_address db_provinces db_districts db_wards
      special_ending out :
  parse_address input_address db_provinces db_districts db_wards special_ending
  = Ok out ->
  exists st,
    parse_locals input_address db_provinces db_districts db_wards
                 special_ending = Ok st
    /\ out = assemble st.
Proof.
  unfold parse_address. intros H. apply bind_ok in H as [st [Hst H]].
  apply Ok_inj in H. now exists st.
Qed.

Lemma str_eqb_eq (a b : str) : str_eqb a b = true <-> a = b.
Proof.
  revert b; induction a as [|x a IH]; intros [|y b]; simpl; split;
    try easy.
  - intros H. apply andb_true_iff in H as [Hxy H].
    apply eqb_ascii_true in Hxy. apply IH in H. now subst.
  - intros H. injection H as -> ->. rewrite Ascii.eqb_refl. now apply IH.
Qed.

Lemma get_in {V : Type} (d : dict V) (k : str) (v : V) :
  get d k = Some v -> In (k, v) d.
Proof.
  induction d as [|[k' v'] d IH]; simpl; [discriminate|].
  destruct (str_eqb k k') eqn:E.
  - intros H. injection H as ->. apply str_eqb_eq in E. subst. now left.
  - intros H. right. now apply IH.
Qed.

(** In a dictionary (keys are unique) an entry is what [get] returns. *)
Lemma in_get {V : Type} (d : dict V) (k : str) (v : V) :
  NoDup (map fst d) -> In (k, v) d -> get d k = Some v.
Proof.
  induction d as [|[k' v'] d IH]; simpl; intros Hnd Hin; [destruct Hin|].
  inversion Hnd as [|? ? Hnotin Hnd']; subst.
  destruct Hin as [Heq|Hin].
  - injection Heq as -> ->.
    destruct (str_eqb k k) eqn:E; [reflexivity|].
    assert (str_eqb k k = true) by now apply str_eqb_eq. congruence.
  - destruct (str_eqb k k') eqn:E.
    + apply str_eqb_eq in E. subst k'. exfalso. apply Hnotin.
      apply in_map_iff. now exists (k, v).
    + now apply IH.
Qed.

Lemma province_of_id_first (db : dict province_data) (pid key : str)
      (value : province_data) :
  In (key, value) db -> p_id value = pid ->
  exists key' value',
    In (key', value') db /\ p_id value' = pid
    /\ province_of_id db pid = key'.
Proof.
  induction db as [|[k v] db IH]; simpl; intros Hin Hid; [destruct Hin|].
  destruct (str_eqb (p_id v) pid) eqn:E.
  - apply str_eqb_eq in E. exists k, v. auto.
  - destruct Hin as [Heq|Hin].
    + injection Heq as -> ->.
      assert (str_eqb (p_id value) pid = true) by now apply str_eqb_eq.
      congruence.
    + destruct (IH Hin Hid) as [k' [v' [H1 [H2 H3]]]].
      exists k', v'. auto.
Qed.

(** The loops of a run select among their candidates: the province loop
    among all province words by [rfind]; the district loop among the words
    of the province's districts by the anchored pattern, or among all
    district words by the bare pattern; the ward loop among the words of
    the district's wards by the anchored pattern. *)
Lemma run_selects input_address db_provinces db_districts db_wards
      special_ending st :
  run_of input_address db_provinces db_districts db_wards special_ending st ->
  selects (index_plain (address0 st)) (pairs_of p_words db_provinces)
          (province_pick st)
  /\ (if truthy (founded (province_pick st))
      then exists data,
          get db_provinces (founded (province_pick st)) = Some data
          /\ selects (index_anchored special_ending (address2 st))
                     (unit_pairs d_words db_districts (p_district data))
                     (district_pick st)
      else selects (index_bare (address2 st)) (pairs_of d_words db_districts)
                   (district_pick st))
  /\ (if truthy (founded (district_pick st))
      then exists data,
          get db_districts (founded (district_pick st)) = Some data
          /\ selects (index_anchored special_ending (address3 st))
                     (unit_pairs w_words db_wards (d_ward data))
                     (ward_pick st)
      else ward_pick st = no_pick).
Proof.
  intros (_ & Hpp & _ & _ & Hdp & _ & _ & Hwp & _).
  split; [|split].
  - rewrite Hpp, scan_items_step. apply selects_loop.
  - destruct (truthy (founded (province_pick st))).
    + destruct Hdp as [data [Hg Hs]]. exists data. split; [assumption|].
      apply scan_units_step in Hs as [-> _]. apply selects_loop.
    + rewrite Hdp, scan_items_step. apply selects_loop.
  - destruct (truthy (founded (district_pick st))); [|assumption].
    destruct Hwp as [data [Hg Hs]]. exists data. split; [assumption|].
    apply scan_units_step in Hs as [-> _]. apply selects_loop.
Qed.

(** The word a loop of a run selected occurs in the address the loop
    scanned, at or to the right of the index the loop recorded. *)
Lemma run_words_occur input_address db_provinces db_districts db_wards
      special_ending st :
  run_of input_address db_provinces db_districts db_wards special_ending st ->
  (truthy (founded (province_pick st)) = true ->
   largest_index (province_pick st)
   = rfind (address0 st) (choose_word (province_pick st))
   /\ (-1 < largest_index (province_pick st))%Z)
  /\ (truthy (founded (district_pick st)) = true ->
      (-1 < largest_index (district_pick st)
       <= rfind (address2 st) (choose_word (district_pick st)))%Z)
  /\ (truthy (founded (ward_pick st)) = true ->
      truthy (founded (district_pick st)) = true
      /\ (-1 < largest_index (ward_pick st)
          <= rfind (address3 st) (choose_word (ward_pick st)))%Z).
Proof.
  intros Hrun. destruct (run_selects _ _ _ _ _ _ Hrun) as (Sp & Sd & Sw).
  assert (anch : forall a cs pk,
             selects (index_anchored special_ending a) cs pk ->
             truthy (founded pk) = true ->
             (-1 < largest_index pk <= rfind a (choose_word pk))%Z).
  { intros a cs pk S Ht.
    destruct (selects_truthy _ _ _ S Ht) as (_ & Hidx & Hpos).
    destruct (index_anchored_occurs special_ending a (choose_word pk))
      as [i [Hi Ho]]; [lia|].
    apply rfind_rightmost in Ho. lia. }
  split; [|split].
  - intros Ht. destruct (selects_truthy _ _ _ Sp Ht) as (_ & Hidx & Hpos).
    unfold index_plain in *. split; [assumption | lia].
  - intros Ht. destruct (truthy (founded (province_pick st))).
    + destruct Sd as [data [_ S]]. now apply (anch _ _ _ S).
    + destruct (selects_truthy _ _ _ Sd Ht) as (_ & Hidx & Hpos).
      destruct (index_bare_occurs (address2 st) (choose_word (district_pick st)))
        as [i [Hi Ho]]; [lia|].
      apply rfind_rightmost in Ho. lia.
  - intros Ht. destruct (truthy (founded (district_pick st))) eqn:Hd.
    + destruct Sw as [data [_ S]]. split; [reflexivity|].
      now apply (anch _ _ _ S).
    + rewrite Sw in Ht. discriminate.
Qed.

(* ===================================================================== *)
(** ** Properties of the resolver *)
(* ===================================================================== *)

(** C2 (hierarchical constraint).  On a run that resolved a province, the
    district loop is the loop over that province's own district list with
    the anchored pattern: the district it leaves is the empty string or a
    member of that list, and when no word of those districts matches, the
    district is the empty string (and so is the district name, the empty
    string being no key of the district dictionary). *)
Theorem district_within_province
        input_address db_provinces db_districts db_wards special_ending st :
  parse_locals input_address db_provinces db_districts db_wards special_ending
  = Ok st ->
  truthy (founded (province_pick st)) = true ->
  exists data,
    get db_provinces (founded (province_pick st)) = Some data
    /\ scan_units (index_anchored special_ending (address2 st)) d_words
                  db_districts (p_district data) no_pick
       = Ok (district_pick st)
    /\ (founded (district_pick st) = []
        \/ In (founded (district_pick st)) (p_district data))
    /\ ((forall d dd w,
            In d (p_district data) -> get db_districts d = Some dd ->
            In w (d_words dd) ->
            index_anchored special_ending (address2 st) w = (-1)%Z) ->
        founded (district_pick st) = []
        /\ (get db_districts [] = None -> district st = [])).
Proof.
  intros Hrun Hp. apply parse_locals_run in Hrun.
  destruct (run_selects _ _ _ _ _ _ Hrun) as (_ & Sd & _).
  destruct Hrun as (_ & _ & _ & _ & Hdp & _ & _ & _ & _ & _ & Hname & _).
  rewrite Hp in Hdp, Sd.
  destruct Hdp as [data [Hg Hs]]. destruct Sd as [data' [Hg' S]].
  rewrite Hg in Hg'. injection Hg' as <-.
  exists data. split; [assumption|]. split; [assumption|]. split.
  - destruct S as [[-> _] | [Hin _]]; [now left|].
    right. apply in_unit_pairs in Hin. tauto.
  - intros Hnone.
    assert (Hf : founded (district_pick st) = []).
    { destruct S as [[-> _] | [Hin [Hidx [Hpos _]]]]; [reflexivity|].
      apply in_unit_pairs in Hin as [Hu [dd [Hd Hw]]].
      specialize (Hnone _ _ _ Hu Hd Hw). lia. }
    split; [assumption|].
    intros Hk. rewrite Hname, Hf. unfold name_of. now rewrite Hk.
Qed.

Lemma district_within_province_witness :
  exists st,
    ex_locals "123 Nguyen Van Cu, Q.1, Tp.HCM" = Ok st
    /\ founded (province_pick st) = txt "hcm"
    /\ founded (district_pick st) = txt "q1"
    /\ exists data,
        get ex_provinces (founded (province_pick st)) = Some data
        /\ (founded (district_pick st) = []
            \/ In (founded (district_pick st)) (p_district data)).
Proof.
  destruct (ex_locals "123 Nguyen Van Cu, Q.1, Tp.HCM") as [st|k] eqn:E;
    [|vm_compute in E; discriminate].
  exists st. split; [reflexivity|].
  assert (Hp : founded (province_pick st) = txt "hcm").
  { vm_compute in E. apply Ok_inj in E. now subst st. }
  assert (Hd : founded (district_pick st) = txt "q1").
  { vm_compute in E. apply Ok_inj in E. now subst st. }
  split; [assumption|]. split; [assumption|].
  unfold ex_locals in E.
  destruct (district_within_province
              (txt "123 Nguyen Van Cu, Q.1, Tp.HCM") ex_provinces ex_districts
              ex_wards SPECIAL_ENDING st E) as [data [Hg [_ [Hin _]]]].
  - now rewrite Hp.
  - exists data. split; assumption.
Defined.

(** C3 (parent inference).  On a run that resolved no province but a
    district, the province name of the output is the name of the province
    whose id the district records, provided that province exists and no
    other province has the same id (keys of a dictionary are unique). *)
Theorem province_inferred_from_district
        input_address db_provinces db_districts db_wards special_ending st
        dd key value :
  parse_locals input_address db_provinces db_districts db_wards special_ending
  = Ok st ->
  truthy (founded (province_pick st)) = false ->
  truthy (founded (district_pick st)) = true ->
  get db_districts (founded (district_pick st)) = Some dd ->
  NoDup (map fst db_provinces) ->
  In (key, value) db_provinces ->
  p_id value = d_province dd ->
  (forall key' value',
      In (key', value') db_provinces -> p_id value' = d_province dd ->
      key' = key) ->
  province_key st = key /\ province st = p_name value.
Proof.
  intros Hrun Hp Hd Hdd Hnd Hin Hid Huniq. apply parse_locals_run in Hrun.
  destruct Hrun as (_ & _ & _ & _ & _ & _ & Hpk & _ & _ & Hname & _).
  rewrite Hp, Hd in Hpk. simpl in Hpk.
  destruct Hpk as [dd' [Hg Hpk]]. rewrite Hdd in Hg. injection Hg as <-.
  destruct (province_of_id_first _ _ _ _ Hin Hid) as [k' [v' [H1 [H2 H3]]]].
  assert (Hk : k' = key) by now apply (Huniq k' v').
  rewrite Hk in H3.
  split; [congruence|].
  rewrite Hname, Hpk, H3. unfold name_of. now rewrite (in_get _ _ _ Hnd Hin).
Qed.

Lemma province_inferred_from_district_witness :
  exists st,
    ex_locals "45 Le Loi, Q1" = Ok st
    /\ founded (province_pick st) = []
    /\ founded (district_pick st) = txt "q1"
    /\ province_key st = txt "hcm"
    /\ province st = txt "Ho Chi Minh".
Proof.
  destruct (ex_locals "45 Le Loi, Q1") as [st|k] eqn:E;
    [|vm_compute in E; discriminate].
  exists st. split; [reflexivity|].
  assert (Hp : founded (province_pick st) = []).
  { vm_compute in E. apply Ok_inj in E. now subst st. }
  assert (Hd : founded (district_pick st) = txt "q1").
  { vm_compute in E. apply Ok_inj in E. now subst st. }
  split; [assumption|]. split; [assumption|].
  unfold ex_locals in E.
  apply (province_inferred_from_district
           (txt "45 Le Loi, Q1") ex_provinces ex_districts ex_wards
           SPECIAL_ENDING st
           {| d_name := txt "Quan 1"; d_words := [txt "Q1"; txt "Quan 1"];
              d_province := txt "79"; d_ward := [txt "bn"] |}
           (txt "hcm")
           {| p_id := txt "79"; p_name := txt "Ho Chi Minh";
              p_words := [txt "Ho Chi Minh"; txt "Hcm"];
              p_district := [txt "q1"; txt "tb"] |} E).
  - now rewrite Hp.
  - now rewrite Hd.
  - now rewrite Hd.
  - repeat constructor; simpl; intuition discriminate.
  - now left.
  - reflexivity.
  - intros key' value' [H|[H|[]]] Hid; injection H as <- <-;
      [reflexivity | discriminate].
Defined.










(* ===================================================================== *)
(** ** Substitution: what [re.sub] keeps *)
(* ===================================================================== *)

(** The groups of a match are made of characters of the match. *)
Lemma den_caps_sub (ic : bool) r l m rt c :
  den ic r l m rt c ->
  forall n s, In (n, s) c -> forall x, In x s -> In x m.
Proof.
  induction 1; intros k s Hin x Hx; try (now destruct Hin).
  - apply in_app_or in Hin as [Hin|Hin]; apply in_or_app.
    + right. eapply IHden2; eauto.
    + left. eapply IHden1; eauto.
  - eapply IHden; eauto.
  - eapply IHden; eauto.
  - destruct Hin as [Heq|Hin].
    + injection Heq as <- <-. assumption.
    + eapply IHden; eauto.
Qed.

Lemma group_in (n : nat) (caps : captures) :
  group n caps = [] \/ In (n, group n caps) caps.
Proof.
  induction caps as [|[m s] caps IH]; simpl; [now left|].
  destruct (Nat.eqb_spec n m) as [->|_]; [right; now left|].
  destruct IH as [IH|IH]; [now left | right; now right].
Qed.

(** A group of a match found in a text of [P]-characters is made of
    [P]-characters. *)
Lemma group_Forall (P : ascii -> Prop) ic r l rt ma n caps g :
  Forall P rt -> match_here ic r l rt ma = Some (n, caps) ->
  Forall P (group g caps).
Proof.
  intros Hrt Hm. apply match_here_sound in Hm as [m [rt' [-> [D _]]]].
  destruct (group_in g caps) as [->|Hin]; [constructor|].
  apply Forall_forall. intros x Hx.
  apply (den_caps_sub _ _ _ _ _ _ D _ _ Hin) in Hx.
  rewrite Forall_forall in Hrt. apply Hrt. apply in_or_app. now left.
Qed.

Section SubFacts.
Variable ic : bool.
Variable r : regex.
Variable repl : captures -> str.

(** If every replacement made in a text of [P]-characters is made of
    [P]-characters, so is the result. *)
Lemma sub_go_Forall (P : ascii -> Prop) :
  (forall l rt ma n caps,
      Forall P rt -> match_here ic r l rt ma = Some (n, caps) ->
      Forall P (repl caps)) ->
  forall rt l skip, Forall P rt -> Forall P (sub_go ic r repl l rt skip).
Proof.
  intros Hrepl.
  assert (Hout : forall l rt, Forall P rt ->
             Forall P (flat_map (fun m => repl (snd m))
                                (matches_at ic r l rt))).
  { intros l rt Hrt. apply Forall_flat_map, Forall_forall.
    intros [n caps] Hin. apply matches_at_sound in Hin as [ma Hm].
    simpl. eapply Hrepl; eauto. }
  induction rt as [|c rt IH]; intros l skip Hrt; simpl.
  - destruct skip; [now apply Hout | constructor].
  - assert (Hrt' : Forall P rt) by now inversion Hrt.
    destruct skip as [|k]; [|now apply IH].
    destruct (covered (matches_at ic r l (c :: rt))).
    + apply Forall_app. split; [now apply Hout|].
      constructor; [now inversion Hrt | now apply IH].
    + apply Forall_app. split; [now apply Hout | now apply IH].
Qed.

Lemma sub_Forall (P : ascii -> Prop) (text : str) :
  (forall l rt ma n caps,
      Forall P rt -> match_here ic r l rt ma = Some (n, caps) ->
      Forall P (repl caps)) ->
  Forall P text -> Forall P (sub ic r repl text).
Proof. intros H Ht. now apply sub_go_Forall. Qed.
End SubFacts.

(** Unfolding equations of the substitution scan. *)
Lemma sub_go_nil ic r repl l :
  sub_go ic r repl l [] 0
  = flat_map (fun m => repl (snd m)) (matches_at ic r l []).
Proof. reflexivity. Qed.

Lemma sub_go_skip ic r repl l c rt k :
  sub_go ic r repl l (c :: rt) (S k) = sub_go ic r repl (c :: l) rt k.
Proof. reflexivity. Qed.

Lemma sub_go_cons ic r repl l c rt :
  sub_go ic r repl l (c :: rt) 0
  = flat_map (fun m => repl (snd m)) (matches_at ic r l (c :: rt))
    ++ match covered (matches_at ic r l (c :: rt)) with
       | O => c :: sub_go ic r repl (c :: l) rt 0
       | S n => sub_go ic r repl (c :: l) rt n
       end.
Proof.
  cbn [sub_go]. now destruct (covered (matches_at ic r l (c :: rt))).
Qed.

Lemma length_cons_sub (c : ascii) (l : str) : length (c :: l) - length l = 1.
Proof. change (length (c :: l)) with (S (length l)). lia. Qed.

Lemma match_here_cls (p : ascii -> bool) (l rt : str) (ma : bool) :
  match_here false (RCls p) l rt ma
  = match rt with
    | c :: _ => if p c then Some (1, []) else None
    | [] => None
    end.
Proof.
  unfold match_here. cbn [rmatch]. destruct rt as [|c rt]; [reflexivity|].
  destruct (p c); [|reflexivity].
  rewrite length_cons_sub. now destruct ma.
Qed.

(** Substituting the empty string for a character class filters it out. *)
Lemma sub_go_cls_filter (p : ascii -> bool) (text : str) : forall l,
  sub_go false (RCls p) (fun _ => []) l text 0
  = filter (fun c => negb (p c)) text.
Proof.
  induction text as [|c rt IH]; intros l.
  - rewrite sub_go_nil. unfold matches_at. now rewrite match_here_cls.
  - rewrite sub_go_cons. unfold matches_at. rewrite match_here_cls.
    cbn [filter]. destruct (p c); cbn.
    + apply IH.
    + f_equal. apply IH.
Qed.

Lemma sub_cls_filter (p : ascii -> bool) (text : str) :
  sub false (RCls p) (fun _ => []) text = filter (fun c => negb (p c)) text.
Proof. apply sub_go_cls_filter. Qed.

(* ===================================================================== *)
(** ** Characters *)
(* ===================================================================== *)

Ltac ascii_cases c :=
  destruct c as [[] [] [] [] [] [] [] []]; vm_compute;
  try reflexivity; try discriminate; auto.

Lemma to_upper_not_punct (c : ascii) : not_punct c -> not_punct (to_upper c).
Proof. unfold not_punct. ascii_cases c. Qed.

Lemma to_lower_not_punct (c : ascii) : not_punct c -> not_punct (to_lower c).
Proof. unfold not_punct. ascii_cases c. Qed.

Lemma to_upper_not_space (c : ascii) :
  is_space c = false -> is_space (to_upper c) = false.
Proof. ascii_cases c. Qed.

Lemma to_lower_not_space (c : ascii) :
  is_space c = false -> is_space (to_lower c) = false.
Proof. ascii_cases c. Qed.

Lemma digit_not_space (c : ascii) : is_digit c = true -> is_space c = false.
Proof. ascii_cases c. Qed.

Lemma digit_not_punct (c : ascii) : is_digit c = true -> not_punct c.
Proof. unfold not_punct. ascii_cases c. Qed.

Lemma space_not_punct (c : ascii) : is_space c = true -> not_punct c.
Proof. unfold not_punct. ascii_cases c. Qed.

Lemma not_punct_comma (c : ascii) : not_punct c -> c <> ","%char.
Proof. intros H ->. discriminate H. Qed.

(* ===================================================================== *)
(** ** Splitting, joining, stripping *)
(* ===================================================================== *)

Lemma Forall_lstrip (P : ascii -> Prop) (t : str) :
  Forall P t -> Forall P (lstrip t).
Proof.
  induction 1 as [|c t Hc Ht IH]; simpl; [constructor|].
  destruct (is_space c); [assumption | now constructor].
Qed.

Lemma Forall_strip (P : ascii -> Prop) (t : str) :
  Forall P t -> Forall P (strip t).
Proof.
  intros H. unfold strip.
  apply Forall_rev, Forall_lstrip, Forall_rev, Forall_lstrip, H.
Qed.

Lemma Forall_cons_head (P : ascii -> Prop) (c : ascii) (ws : list str) :
  P c -> Forall (Forall P) ws -> Forall (Forall P) (cons_head c ws).
Proof.
  intros Hc Hws. destruct ws as [|w ws]; simpl.
  - repeat constructor; assumption.
  - inversion Hws; subst. constructor; [now constructor | assumption].
Qed.

Lemma Forall_split (P : ascii -> Prop) (t : str) :
  Forall P t -> Forall (Forall P) (split t).
Proof.
  induction 1 as [|c t Hc Ht IH]; simpl; [constructor|].
  destruct (is_space c); [assumption|].
  destruct t as [|d t]; [repeat constructor; assumption|].
  destruct (is_space d).
  - constructor; [repeat constructor; assumption | assumption].
  - now apply Forall_cons_head.
Qed.

Lemma Forall_join (P : ascii -> Prop) (sep : str) (ws : list str) :
  Forall P sep -> Forall (Forall P) ws -> Forall P (join sep ws).
Proof.
  intros Hsep. induction 1 as [|w ws Hw Hws IH]; simpl; [constructor|].
  destruct ws as [|w' ws]; [assumption|].
  apply Forall_app. split; [assumption|].
  apply Forall_app. split; assumption.
Qed.

Lemma Forall_capitalize (P : ascii -> Prop) (w : str) :
  (forall c, P c -> P (to_upper c)) -> (forall c, P c -> P (to_lower c)) ->
  Forall P w -> Forall P (capitalize w).
Proof.
  intros Hu Hl [|c t Hc Ht]; simpl; constructor; [now apply Hu|].
  induction Ht; simpl; constructor; auto.
Qed.

Lemma Forall_init_cap_words (P : ascii -> Prop) (t : str) :
  (forall c, P c -> P (to_upper c)) -> (forall c, P c -> P (to_lower c)) ->
  P " "%char ->
  Forall P t -> Forall P (init_cap_words t).
Proof.
  intros Hu Hl Hsp Ht. unfold init_cap_words.
  destruct t as [|c t]; [constructor|].
  apply Forall_join; [repeat constructor; assumption|].
  apply Forall_map. apply Forall_split in Ht.
  eapply Forall_impl; [|exact Ht].
  intros w Hw. now apply Forall_capitalize.
Qed.

(* ===================================================================== *)
(** ** The normaliser leaves no punctuation *)
(* ===================================================================== *)

Lemma remove_spare_space_Forall (P : ascii -> Prop) (t : str) :
  P " "%char -> Forall P t -> Forall P (remove_spare_space t).
Proof.
  intros Hsp Ht. unfold remove_spare_space.
  apply sub_Forall; [|now apply Forall_strip].
  intros; repeat constructor; assumption.
Qed.

Lemma remove_punctuation_not_punct (t : str) :
  Forall not_punct (remove_punctuation t ADDRESS_PUNCTUATIONS).
Proof.
  unfold remove_punctuation.
  change ADDRESS_PUNCTUATIONS with ("."%char :: tl ADDRESS_PUNCTUATIONS) at 1.
  cbv iota. apply remove_spare_space_Forall; [reflexivity|].
  rewrite sub_cls_filter. apply Forall_forall. intros c Hc.
  apply filter_In in Hc as [_ Hc]. unfold not_punct.
  now destruct (one_of ADDRESS_PUNCTUATIONS c).
Qed.

Lemma Forall_txt_group (P : ascii -> Prop) ic r l rt ma n caps g (x : ascii) :
  P x -> Forall P rt -> match_here ic r l rt ma = Some (n, caps) ->
  Forall P ([x] ++ group g caps).
Proof.
  intros Hx Hrt Hm. constructor; [assumption|].
  eapply group_Forall; eauto.
Qed.

Lemma clean_digit_district_Forall (P : ascii -> Prop) (t : str) :
  P "Q"%char -> Forall P t -> Forall P (clean_digit_district t).
Proof.
  intros HQ Ht. unfold clean_digit_district.
  apply sub_Forall; [intros; eapply Forall_txt_group; eauto|].
  apply sub_Forall; [intros; eapply Forall_txt_group; eauto|].
  assumption.
Qed.

Lemma clean_digit_ward_Forall (P : ascii -> Prop) (t : str) :
  P "P"%char -> Forall P t -> Forall P (clean_digit_ward t).
Proof.
  intros HP Ht. unfold clean_digit_ward.
  apply sub_Forall; [intros; eapply Forall_txt_group; eauto|].
  apply sub_Forall; [intros; eapply Forall_txt_group; eauto|].
  apply sub_Forall; [intros; eapply Forall_txt_group; eauto|].
  assumption.
Qed.

Lemma add_space_separator_not_punct (t : str) :
  Forall not_punct t -> Forall not_punct (add_space_separator t).
Proof.
  intros Ht. unfold add_space_separator.
  apply Forall_init_cap_words;
    [exact to_upper_not_punct | exact to_lower_not_punct | reflexivity |].
  apply Forall_strip.
  apply sub_Forall; [intros; repeat constructor; reflexivity|].
  apply sub_Forall; [intros; repeat constructor; reflexivity|].
  apply sub_Forall; [|assumption].
  (* no comma is there to match *)
  intros l rt ma n caps Hrt Hm. exfalso.
  apply match_here_sound in Hm as [m [rt' [-> [D _]]]].
  apply den_seq_inv in D as [m1 [m2 [c1 [c2 [-> [_ [_ D]]]]]]].
  apply den_seq_inv in D as [m3 [m4 [c3 [c4 [-> [_ [D _]]]]]]].
  apply den_lit_inv in D as [d [-> [_ E]]].
  apply eqb_ascii_true in E. subst d.
  rewrite Forall_forall in Hrt.
  assert (H : not_punct ","%char).
  { apply Hrt. apply in_or_app. left. apply in_or_app. right. now left. }
  discriminate H.
Qed.

(** The normalised address holds none of the characters of
    [ADDRESS_PUNCTUATIONS]; in particular it holds no comma. *)
Lemma clean_full_address_not_punct (t : str) :
  Forall not_punct (clean_full_address t).
Proof.
  unfold clean_full_address.
  apply clean_digit_ward_Forall; [reflexivity|].
  apply clean_digit_district_Forall; [reflexivity|].
  apply add_space_separator_not_punct.
  apply remove_punctuation_not_punct.
Qed.

Lemma clean_full_address_no_comma (t : str) :
  Forall (fun c => c <> ","%char) (clean_full_address t).
Proof.
  eapply Forall_impl; [|apply clean_full_address_not_punct].
  exact not_punct_comma.
Qed.

(* ===================================================================== *)
(** ** The normaliser leaves no trailing whitespace *)
(* ===================================================================== *)

Lemma ends_nonspace_not_nil : ~ ends_nonspace [].
Proof. intros [pre [z [H _]]]. now destruct pre. Qed.

Lemma ends_nonspace_cons (c : ascii) (t : str) :
  ends_nonspace t -> ends_nonspace (c :: t).
Proof. intros [pre [z [-> Hz]]]. now exists (c :: pre), z. Qed.

Lemma ends_nonspace_app (s t : str) :
  ends_nonspace t -> ends_nonspace (s ++ t).
Proof.
  intros [pre [z [-> Hz]]]. exists (s ++ pre), z.
  now rewrite app_assoc.
Qed.

Lemma ends_nonspace_tail (c d : ascii) (t : str) :
  ends_nonspace (c :: d :: t) -> ends_nonspace (d :: t).
Proof.
  intros [pre [z [H Hz]]]. destruct pre as [|x pre]; [discriminate|].
  injection H as _ H. now exists pre, z.
Qed.

Lemma ends_nonspace_single (c : ascii) :
  ends_nonspace [c] -> is_space c = false.
Proof.
  intros [pre [z [H Hz]]]. destruct pre as [|x pre].
  - now injection H as ->.
  - injection H as _ H. now destruct pre.
Qed.

Lemma ends_nonspace_all (t : str) :
  t <> [] -> Forall (fun c => is_space c = false) t -> ends_nonspace t.
Proof.
  intros Hne Ht. destruct (exists_last Hne) as [pre [z ->]].
  exists pre, z. split; [reflexivity|].
  apply Forall_app in Ht as [_ Ht]. now inversion Ht.
Qed.

Lemma match_here_length ic r l rt ma n caps :
  match_here ic r l rt ma = Some (n, caps) -> n <= length rt.
Proof.
  intros H. apply match_here_sound in H as [m [rt' [-> [_ [-> _]]]]].
  rewrite length_app. lia.
Qed.

Section SubEnd.
Variable ic : bool.
Variable r : regex.
Variable repl : captures -> str.

(** Every match is non-empty, and a match that reaches the end of the
    text is replaced by something that ends with a non-space. *)
Hypothesis Hmatch : forall l rt ma n caps,
    match_here ic r l rt ma = Some (n, caps) ->
    1 <= n /\ (n = length rt -> ends_nonspace (repl caps)).

Lemma matches_at_end (l : str) : matches_at ic r l [] = [].
Proof.
  unfold matches_at.
  destruct (match_here ic r l [] false) as [[n c]|] eqn:E; [|reflexivity].
  pose proof (match_here_length _ _ _ _ _ _ _ E) as Hn.
  apply Hmatch in E as [H1 _]. simpl in Hn. lia.
Qed.

Lemma matches_at_single (l rt : str) :
  matches_at ic r l rt = []
  \/ exists n caps, matches_at ic r l rt = [(S n, caps)]
                    /\ match_here ic r l rt false = Some (S n, caps).
Proof.
  unfold matches_at.
  destruct (match_here ic r l rt false) as [[[|n] c]|] eqn:E.
  - apply Hmatch in E as [H1 _]. lia.
  - right. now exists n, c.
  - now left.
Qed.

Lemma sub_go_skip_all (rt : str) : forall l,
  sub_go ic r repl l rt (length rt) = [].
Proof.
  induction rt as [|c rt IH]; intros l.
  - rewrite sub_go_nil. now rewrite matches_at_end.
  - cbn [length]. rewrite sub_go_skip. apply IH.
Qed.

Lemma sub_go_keeps_end (rt : str) : forall l skip,
  ends_nonspace rt -> skip < length rt ->
  ends_nonspace (sub_go ic r repl l rt skip).
Proof.
  induction rt as [|c rt IH]; intros l skip Hend Hskip.
  - now apply ends_nonspace_not_nil in Hend.
  - destruct skip as [|k].
    + rewrite sub_go_cons.
      destruct (matches_at_single l (c :: rt)) as [-> | [n [caps [-> Hm]]]].
      * cbn. destruct rt as [|d rt].
        -- rewrite sub_go_nil, matches_at_end. exact Hend.
        -- apply ends_nonspace_cons. apply IH.
           ++ now apply ends_nonspace_tail in Hend.
           ++ simpl. lia.
      * cbn [flat_map snd covered rev app]. rewrite app_nil_r.
        pose proof (match_here_length _ _ _ _ _ _ _ Hm) as Hn.
        cbn [length] in Hn.
        destruct (Nat.eq_dec n (length rt)) as [->|Hne].
        -- rewrite sub_go_skip_all, app_nil_r.
           now apply (Hmatch _ _ _ _ _ Hm).
        -- apply ends_nonspace_app. apply IH; [|lia].
           destruct rt as [|d rt]; [simpl in *; lia|].
           now apply ends_nonspace_tail in Hend.
    + rewrite sub_go_skip. cbn [length] in Hskip. apply IH; [|lia].
      destruct rt as [|d rt]; [simpl in *; lia|].
      now apply ends_nonspace_tail in Hend.
Qed.

Lemma sub_keeps_end (text : str) :
  no_trailing_space text -> no_trailing_space (sub ic r repl text).
Proof.
  intros [-> | Hend].
  - left. unfold sub. now rewrite sub_go_nil, matches_at_end.
  - right. apply sub_go_keeps_end; [assumption|].
    destruct text; [now apply ends_nonspace_not_nil in Hend | simpl; lia].
Qed.
End SubEnd.

Ltac den_inv :=
  repeat match goal with
    | H : den _ (RSeq _ _) _ _ _ _ |- _ =>
        apply den_seq_inv in H as (?m & ?m & ?c & ?c & -> & -> & ? & ?)
    | H : den _ RWordB _ _ _ _ |- _ =>
        apply den_wordb_inv in H as (-> & -> & ?)
    | H : den _ (RGrp _ _) _ _ _ _ |- _ =>
        apply den_grp_inv in H as (?c & -> & ?)
    | H : den _ (RStar _) _ _ _ _ |- _ =>
        apply den_star_inv in H as (? & ->)
    | H : den _ (RLit _) _ _ _ _ |- _ =>
        apply den_lit_inv in H as (?d & -> & -> & ?)
    | H : den _ (RCls _) _ _ _ _ |- _ =>
        apply den_cls_inv in H as (?d & -> & -> & ?)
    | H : den _ REps _ _ _ _ |- _ =>
        apply den_eps_inv in H as (-> & ->)
    end.

(** What the number patterns capture: a non-empty run of digits. *)
Lemma unit_number_digits ic short long l m rt c :
  den ic (unit_number short long) l m rt c ->
  1 <= length m
  /\ group 2 c <> [] /\ Forall (fun d => is_digit d = true) (group 2 c).
Proof.
  unfold unit_number, plus. intros D. den_inv.
  cbn. repeat split.
  - rewrite !length_app. cbn. lia.
  - discriminate.
  - constructor; assumption.
Qed.

Lemma leading_zeros_digits ic letter l m rt c :
  den ic (leading_zeros letter) l m rt c ->
  1 <= length m
  /\ group 1 c <> [] /\ Forall (fun d => is_digit d = true) (group 1 c).
Proof.
  unfold leading_zeros, plus. intros D. den_inv.
  cbn. repeat split.
  - lia.
  - discriminate.
  - constructor; assumption.
Qed.

Lemma letter_number_digits ic (p : ascii -> bool) l m rt c :
  den ic (RSeq RWordB (RSeq (RCls p) (RSeq (RGrp 1 (plus is_digit)) RWordB)))
      l m rt c ->
  1 <= length m
  /\ group 1 c <> [] /\ Forall (fun d => is_digit d = true) (group 1 c).
Proof.
  unfold plus. intros D. den_inv.
  cbn. repeat split.
  - lia.
  - discriminate.
  - constructor; assumption.
Qed.

Lemma ends_nonspace_digits (x : ascii) (ds : str) :
  ds <> [] -> Forall (fun d => is_digit d = true) ds ->
  ends_nonspace ([x] ++ ds).
Proof.
  intros Hne Hds. apply ends_nonspace_app, ends_nonspace_all; [assumption|].
  eapply Forall_impl; [|exact Hds]. exact digit_not_space.
Qed.

Lemma clean_digit_district_end (t : str) :
  no_trailing_space t -> no_trailing_space (clean_digit_district t).
Proof.
  intros Ht. unfold clean_digit_district.
  apply sub_keeps_end.
  { intros l rt ma n caps Hm.
    apply match_here_sound in Hm as [m [rt' [-> [D [-> _]]]]].
    apply leading_zeros_digits in D as (H1 & H2 & H3).
    split; [assumption | intros _; now apply ends_nonspace_digits]. }
  apply sub_keeps_end; [|assumption].
  intros l rt ma n caps Hm.
  apply match_here_sound in Hm as [m [rt' [-> [D [-> _]]]]].
  apply unit_number_digits in D as (H1 & H2 & H3).
  split; [assumption | intros _; now apply ends_nonspace_digits].
Qed.

Lemma clean_digit_ward_end (t : str) :
  no_trailing_space t -> no_trailing_space (clean_digit_ward t).
Proof.
  intros Ht. unfold clean_digit_ward.
  apply sub_keeps_end.
  { intros l rt ma n caps Hm.
    apply match_here_sound in Hm as [m [rt' [-> [D [-> _]]]]].
    apply leading_zeros_digits in D as (H1 & H2 & H3).
    split; [assumption | intros _; now apply ends_nonspace_digits]. }
  apply sub_keeps_end.
  { intros l rt ma n caps Hm.
    apply match_here_sound in Hm as [m [rt' [-> [D [-> _]]]]].
    apply letter_number_digits in D as (H1 & H2 & H3).
    split; [assumption | intros _; now apply ends_nonspace_digits]. }
  apply sub_keeps_end; [|assumption].
  intros l rt ma n caps Hm.
  apply match_here_sound in Hm as [m [rt' [-> [D [-> _]]]]].
  apply unit_number_digits in D as (H1 & H2 & H3).
  split; [assumption | intros _; now apply ends_nonspace_digits].
Qed.

Lemma split_tokens (t : str) : Forall token (split t).
Proof.
  induction t as [|c t IH]; simpl; [constructor|].
  destruct (is_space c) eqn:Ec; [assumption|].
  destruct t as [|d t].
  - repeat constructor; [discriminate | assumption].
  - destruct (is_space d) eqn:Ed.
    + constructor; [|assumption].
      split; [discriminate | repeat constructor; assumption].
    + destruct (split (d :: t)) as [|w ws]; simpl.
      * repeat constructor; [discriminate | assumption].
      * inversion IH as [|? ? [Hw1 Hw2] Hws]; subst.
        constructor; [|assumption].
        split; [discriminate | now constructor].
Qed.

Lemma capitalize_token (w : str) : token w -> token (capitalize w).
Proof.
  intros [Hne Hw]. destruct w as [|c w]; [easy|].
  split; [discriminate|].
  apply Forall_capitalize;
    [exact to_upper_not_space | exact to_lower_not_space | assumption].
Qed.

Lemma join_tokens_end (sep : str) (ws : list str) :
  ws <> [] -> Forall token ws -> ends_nonspace (join sep ws).
Proof.
  intros Hne Hws. induction Hws as [|w ws [Hw1 Hw2] Hws IH]; [easy|].
  destruct ws as [|w' ws]; simpl.
  - now apply ends_nonspace_all.
  - rewrite app_assoc. apply ends_nonspace_app. now apply IH.
Qed.

Lemma init_cap_words_end (t : str) : no_trailing_space (init_cap_words t).
Proof.
  unfold init_cap_words. destruct t as [|c t]; [now left|].
  destruct (split (c :: t)) as [|w ws] eqn:E; [now left|].
  right. apply join_tokens_end; [discriminate|].
  apply Forall_map. rewrite <- E.
  eapply Forall_impl; [|apply split_tokens]. exact capitalize_token.
Qed.

(** The normalised address is empty or ends with a character that is not
    whitespace. *)
Lemma clean_full_address_end (t : str) :
  no_trailing_space (clean_full_address t).
Proof.
  unfold clean_full_address.
  apply clean_digit_ward_end, clean_digit_district_end.
  unfold add_space_separator. apply init_cap_words_end.
Qed.

(* ===================================================================== *)
(** ** The sentinel and the "Thanh Pho ," step *)
(* ===================================================================== *)

Lemma endswith_split (t p : str) :
  endswith t p = true -> exists x, t = x ++ p.
Proof.
  unfold endswith. intros H. apply startswith_iff in H as [s H].
  exists (rev s). apply (f_equal (@rev ascii)) in H.
  now rewrite rev_involutive, rev_app_distr, rev_involutive in H.
Qed.

Lemma endswith_app (x p : str) : endswith (x ++ p) p = true.
Proof. unfold endswith. rewrite rev_app_distr. apply startswith_app. Qed.

(** Two splits of a text at a first occurrence of [z] are the same. *)
Lemma split_at_first (z : ascii) (a : str) : forall a' b b',
  ~ In z a -> ~ In z a' -> a ++ z :: b = a' ++ z :: b' -> a = a' /\ b = b'.
Proof.
  induction a as [|x a IH]; intros [|x' a'] b b' Ha Ha' E; simpl in *.
  - now injection E.
  - injection E as <- _. tauto.
  - injection E as -> _. tauto.
  - injection E as <- E. destruct (IH a' b b') as [-> ->]; tauto.
Qed.

Lemma replace_go_thanh_pho (x : str) :
  Forall (fun c => c <> ","%char) x ->
  replace_go THANH_PHO [] (x ++ THANH_PHO) 0 = x.
Proof.
  induction 1 as [|c x Hc Hx IH]; [reflexivity|].
  cbn [app replace_go].
  destruct (startswith THANH_PHO (c :: x ++ THANH_PHO)) eqn:E.
  - exfalso. apply startswith_iff in E as [s E].
    assert (E' : (c :: x ++ txt "Thanh Pho ") ++ ","%char :: []
                 = txt "Thanh Pho " ++ ","%char :: s).
    { rewrite <- app_comm_cons, <- app_assoc. exact E. }
    apply split_at_first in E' as [E' _].
    + apply (f_equal (@length ascii)) in E'. cbn [length] in E'.
      rewrite length_app in E'. lia.
    + intros [Heq|Hin]; [now apply Hc|].
      apply in_app_or in Hin as [Hin|Hin].
      * rewrite Forall_forall in Hx. now apply (Hx _ Hin).
      * vm_compute in Hin. intuition discriminate.
    + vm_compute. intuition discriminate.
  - f_equal. exact IH.
Qed.

Lemma replace_thanh_pho (x : str) :
  Forall (fun c => c <> ","%char) x ->
  replace (x ++ THANH_PHO) THANH_PHO [] = x.
Proof. exact (replace_go_thanh_pho x). Qed.

Lemma Forall_firstn {A : Type} (P : A -> Prop) (n : nat) (l : list A) :
  Forall P l -> Forall P (firstn n l).
Proof.
  intros H. rewrite <- (firstn_skipn n l) in H. now apply Forall_app in H.
Qed.

Lemma Forall_skipn {A : Type} (P : A -> Prop) (n : nat) (l : list A) :
  Forall P l -> Forall P (skipn n l).
Proof.
  intros H. rewrite <- (firstn_skipn n l) in H. now apply Forall_app in H.
Qed.

Lemma comma_only_last_cut (a : str) (i j : nat) :
  i <= j -> comma_only_last a -> comma_only_last (firstn i a ++ skipn j a).
Proof.
  intros Hij [body [Hb [-> | ->]]].
  - exists (firstn i body ++ skipn j body). split; [|now left].
    apply Forall_app. split; [now apply Forall_firstn | now apply Forall_skipn].
  - destruct (Nat.le_gt_cases j (length body)) as [Hj|Hj].
    + exists (firstn i body ++ skipn j body). split.
      * apply Forall_app.
        split; [now apply Forall_firstn | now apply Forall_skipn].
      * right. rewrite firstn_app, skipn_app.
        replace (i - length body) with 0 by lia.
        replace (j - length body) with 0 by lia.
        cbn [firstn skipn]. now rewrite app_nil_r, <- app_assoc.
    + rewrite (skipn_all2 (body ++ [","%char]))
        by (rewrite length_app; simpl; lia).
      rewrite app_nil_r.
      destruct (Nat.le_gt_cases i (length body)) as [Hi|Hi].
      * exists (firstn i body). split; [now apply Forall_firstn|].
        left. rewrite firstn_app. replace (i - length body) with 0 by lia.
        cbn [firstn]. now rewrite app_nil_r.
      * exists body. split; [assumption|]. right.
        apply firstn_all2. rewrite length_app; simpl; lia.
Qed.

Lemma replace_last_comma (a w : str) :
  comma_only_last a -> comma_only_last (replace_last_occurrences a w []).
Proof.
  intros Ha. unfold replace_last_occurrences.
  destruct w as [|c w]; [assumption|].
  destruct (rfind a (c :: w) =? -1)%Z; [assumption|].
  cbn [app]. apply comma_only_last_cut; [|assumption].
  unfold len. pose proof (rfind_lower a (c :: w)). lia.
Qed.

(** After the removal of the province word the address holds no comma
    but, possibly, the sentinel at its end. *)
Lemma run_address1_comma input_address db_provinces db_districts db_wards
      special_ending st :
  run_of input_address db_provinces db_districts db_wards special_ending st ->
  comma_only_last (address1 st).
Proof.
  intros (H0 & _ & H1 & _).
  assert (Ha : comma_only_last (address0 st)).
  { rewrite H0. exists (clean_full_address input_address).
    split; [apply clean_full_address_no_comma | now right]. }
  rewrite H1. destruct (truthy _); [now apply replace_last_comma | assumption].
Qed.

Lemma strip_thanh_pho (a : str) :
  comma_only_last a -> endswith a THANH_PHO = true ->
  a = replace a THANH_PHO [] ++ THANH_PHO.
Proof.
  intros [body [Hb Ha]] He. apply endswith_split in He as [x Hx].
  assert (Hx' : Forall (fun c => c <> ","%char) x).
  { destruct Ha as [-> | ->].
    - (* no comma at all: impossible *)
      rewrite Hx in Hb. apply Forall_app in Hb as [_ Hb].
      rewrite Forall_forall in Hb. exfalso.
      apply (Hb ","%char); [|reflexivity]. vm_compute. tauto.
    - change THANH_PHO with (txt "Thanh Pho " ++ [","%char]) in Hx.
      rewrite app_assoc in Hx. apply app_inj_tail in Hx as [Hx _].
      rewrite Hx in Hb. now apply Forall_app in Hb as [Hb _]. }
  rewrite Hx at 2. now rewrite (replace_thanh_pho x Hx').
Qed.

(** C9 (the dangling "Thanh Pho ,").  On every run: when a province was
    found, its word is removed at its last occurrence; then, if the
    address ends with "Thanh Pho ,", the address loses exactly that ending,
    and otherwise it is left as it is. *)
Theorem thanh_pho_stripped_at_end
        input_address db_provinces db_districts db_wards special_ending st :
  parse_locals input_address db_provinces db_districts db_wards special_ending
  = Ok st ->
  (truthy (founded (province_pick st)) = true ->
   address1 st
   = replace_last_occurrences (address0 st)
                              (choose_word (province_pick st)) [])
  /\ (endswith (address1 st) THANH_PHO = true ->
      address1 st = address2 st ++ THANH_PHO)
  /\ (endswith (address1 st) THANH_PHO = false ->
      address2 st = address1 st).
Proof.
  intros Hrun. apply parse_locals_run in Hrun.
  pose proof (run_address1_comma _ _ _ _ _ _ Hrun) as Hc.
  destruct Hrun as (_ & _ & H1 & H2 & _).
  split; [|split].
  - intros Ht. now rewrite H1, Ht.
  - intros He. rewrite H2, He. now apply strip_thanh_pho.
  - intros He. now rewrite H2, He.
Qed.

Lemma thanh_pho_stripped_at_end_witness :
  exists st,
    parse_locals (txt "Ba Ria Thanh Pho Hcm") ex_provinces ex_districts
                 ex_wards SPECIAL_ENDING = Ok st
    /\ address1 st = txt "Ba Ria Thanh Pho ,"
    /\ address2 st = txt "Ba Ria "
    /\ address1 st = address2 st ++ THANH_PHO.
Proof.
  destruct (parse_locals (txt "Ba Ria Thanh Pho Hcm") ex_provinces
                         ex_districts ex_wards SPECIAL_ENDING)
    as [st|k] eqn:E; [|vm_compute in E; discriminate].
  exists st. split; [reflexivity|].
  assert (H : address1 st = txt "Ba Ria Thanh Pho ,"
              /\ address2 st = txt "Ba Ria "
              /\ endswith (address1 st) THANH_PHO = true).
  { vm_compute in E. apply Ok_inj in E. subst st. vm_compute. tauto. }
  destruct H as (H1 & H2 & He).
  split; [assumption|]. split; [assumption|].
  destruct (thanh_pho_stripped_at_end
              (txt "Ba Ria Thanh Pho Hcm") ex_provinces ex_districts
              ex_wards SPECIAL_ENDING st E) as (_ & Hs & _).
  exact (Hs He).
Defined.

(* ===================================================================== *)
(** ** An address without aliases *)
(* ===================================================================== *)


Lemma index_bare_none (address word : str) :
  rfind address word = (-1)%Z -> index_bare address word = (-1)%Z.
Proof.
  intros H. destruct (Z.eq_dec (index_bare address word) (-1)) as [|Hne];
    [assumption|].
  apply index_bare_occurs in Hne as [i [_ Ho]].
  now apply rfind_none in Ho.
Qed.

Lemma index_anchored_none (special_ending : regex) (address word : str) :
  rfind address word = (-1)%Z ->
  index_anchored special_ending address word = (-1)%Z.
Proof.
  intros H.
  destruct (Z.eq_dec (index_anchored special_ending address word) (-1))
    as [|Hne]; [assumption|].
  apply index_anchored_occurs in Hne as [i [_ Ho]].
  now apply rfind_none in Ho.
Qed.






(* ===================================================================== *)
(** ** The selection rule on overlapping occurrences *)
(* ===================================================================== *)

(** C1 (rightmost occurrence wins), evaluated where it fails.  In
    "Ba Ba Ba," the alias "Ba Ba" occurs at 0 and at 3, the alias "a Ba B"
    at 1 only.  The scan of [last_index_of_regex] reports the matches that
    do not overlap, so for "Ba Ba" it reports 0, not 3, and the district of
    "a Ba B" (index 1) wins over the district whose alias occurs furthest
    to the right. *)
Theorem overlapping_alias_loses :
  exists st,
    parse_locals (txt "Ba Ba Ba") ov_provinces ov_districts [] SPECIAL_ENDING
    = Ok st
    /\ founded (province_pick st) = []
    /\ address2 st = txt "Ba Ba Ba,"
    /\ rfind (address2 st) (txt "Ba Ba") = 3%Z
    /\ rfind (address2 st) (txt "a Ba B") = 1%Z
    /\ index_bare (address2 st) (txt "Ba Ba") = 0%Z
    /\ index_bare (address2 st) (txt "a Ba B") = 1%Z
    /\ founded (district_pick st) = txt "d2"
    /\ choose_word (district_pick st) = txt "a Ba B"
    /\ district st = txt "Huyen Khac".
Proof.
  eexists. split; [vm_compute; reflexivity|].
  vm_compute. repeat split; reflexivity.
Qed.

(* ===================================================================== *)
(** ** Literal patterns, exactly *)
(* ===================================================================== *)

Lemma firstn_length_app {A : Type} (a b : list A) :
  firstn (length a) (a ++ b) = a.
Proof.
  rewrite firstn_app, firstn_all, Nat.sub_diag. cbn. apply app_nil_r.
Qed.

Lemma starts_length (ic : bool) (w : str) : forall rt,
  starts ic w rt = true -> length w <= length rt.
Proof.
  induction w as [|x w IH]; intros [|y rt] H; simpl in *; try lia;
    try discriminate.
  apply andb_true_iff in H as [_ H]. apply IH in H. lia.
Qed.

Lemma rmatch_lit {A : Type} (ic : bool) (w : str) :
  forall l rt caps (k : str -> str -> captures -> option A),
    rmatch ic (lit w) l rt caps k
    = if starts ic w rt
      then k (rev (firstn (length w) rt) ++ l) (skipn (length w) rt) caps
      else None.
Proof.
  induction w as [|x w IH]; intros l rt caps k; [reflexivity|].
  destruct w as [|y w].
  - cbn [lit rmatch starts]. destruct rt as [|d rt]; [reflexivity|].
    rewrite andb_true_r. destruct (chr_eq ic x d); reflexivity.
  - change (lit (x :: y :: w)) with (RSeq (RLit x) (lit (y :: w))).
    cbn [rmatch]. destruct rt as [|d rt]; [reflexivity|].
    change (starts ic (x :: y :: w) (d :: rt))
      with (chr_eq ic x d && starts ic (y :: w) rt).
    destruct (chr_eq ic x d); [|reflexivity].
    rewrite IH. cbn [andb].
    destruct (starts ic (y :: w) rt); [|reflexivity].
    change (length (x :: y :: w)) with (S (length (y :: w))).
    cbn [firstn skipn rev]. now rewrite <- app_assoc.
Qed.

(** A group of alternative literals matches the first alternative the
    text ahead starts with, whatever stands to the left. *)
Lemma match_here_alternatives (ic : bool) (synonyms : list str) (l rt : str)
      (ma : bool) :
  synonyms <> [] -> Forall (fun v => v <> []) synonyms ->
  match_here ic (RGrp 1 (alternatives synonyms)) l rt ma
  = match find (fun v => starts ic v rt) synonyms with
    | Some v => Some (length v, [(1, firstn (length v) rt)])
    | None => None
    end.
Proof.
  intros Hne Hall. unfold match_here. cbn [rmatch].
  match goal with
  | |- rmatch _ _ _ _ _ ?k = _ => set (K := k)
  end.
  assert (Hone : forall s (k : option (nat * captures)),
             s <> [] ->
             (if starts ic s rt
              then K (rev (firstn (length s) rt) ++ l)
                     (skipn (length s) rt) []
              else k)
             = if starts ic s rt
               then Some (length s, [(1, firstn (length s) rt)])
               else k).
  { intros s k Hs. destruct (starts ic s rt) eqn:E; [|reflexivity].
    apply starts_length in E. subst K. cbv beta.
    assert (HL : length (rev (firstn (length s) rt)) = length s)
      by (rewrite length_rev, length_firstn; lia).
    assert (Hrev : rev (rev (firstn (length s) rt)) = firstn (length s) rt)
      by apply rev_involutive.
    revert HL Hrev. generalize (rev (firstn (length s) rt)) as L.
    intros L HL Hrev.
    replace (length (L ++ l) - length l) with (length L)
      by (rewrite length_app; lia).
    rewrite firstn_length_app, Hrev, HL.
    assert (Hz : (length s =? 0) = false).
    { apply Nat.eqb_neq. destruct s; [easy | discriminate]. }
    now rewrite Hz, andb_false_r. }
  clearbody K.
  induction Hall as [|s rest Hs Hrest IH]; [easy|].
  destruct rest as [|s' rest].
  - cbn [alternatives find]. rewrite rmatch_lit, (Hone s None Hs).
    now destruct (starts ic s rt).
  - change (alternatives (s :: s' :: rest))
      with (RAlt (lit s) (alternatives (s' :: rest))).
    cbn [rmatch find]. rewrite rmatch_lit.
    rewrite (Hone s None Hs). destruct (starts ic s rt); [reflexivity|].
    apply IH. discriminate.
Qed.

Lemma find_starts_nil (ic : bool) (synonyms : list str) :
  Forall (fun v => v <> []) synonyms ->
  find (fun v => starts ic v []) synonyms = None.
Proof.
  induction 1 as [|s rest Hs _ IH]; [reflexivity|].
  cbn [find]. destruct s; [easy|]. exact IH.
Qed.

Lemma find_starts_length (ic : bool) (synonyms : list str) (rt v : str) :
  Forall (fun v => v <> []) synonyms ->
  find (fun v => starts ic v rt) synonyms = Some v ->
  exists n, length v = S n.
Proof.
  intros Hall Hf. apply find_some in Hf as [Hin _].
  rewrite Forall_forall in Hall. specialize (Hall _ Hin).
  destruct v; [easy|]. now exists (length v).
Qed.

Lemma sub_expand_go (key : str) (synonyms : list str) :
  synonyms <> [] -> Forall (fun v => v <> []) synonyms ->
  forall text l skip,
    sub_go true (RGrp 1 (alternatives synonyms)) (fun _ => capitalize key)
           l text skip
    = expand_go key synonyms text skip.
Proof.
  intros Hne Hall.
  induction text as [|c t IH]; intros l skip.
  - destruct skip; [|reflexivity].
    rewrite sub_go_nil. unfold matches_at.
    rewrite match_here_alternatives by assumption.
    now rewrite find_starts_nil.
  - destruct skip as [|k]; [|rewrite sub_go_skip; apply IH].
    rewrite sub_go_cons. unfold matches_at.
    rewrite !match_here_alternatives by assumption.
    cbn [expand_go].
    destruct (find (fun v => starts true v (c :: t)) synonyms) as [v|] eqn:E.
    + destruct (find_starts_length _ _ _ _ Hall E) as [n Hn].
      rewrite Hn. cbn. rewrite app_nil_r, Nat.sub_0_r. f_equal. apply IH.
    + cbn. f_equal. apply IH.
Qed.

Lemma fold_sub_expand (d : list (str * list str)) :
  (forall key synonyms,
      In (key, synonyms) d ->
      synonyms <> [] /\ Forall (fun v => v <> []) synonyms) ->
  forall text,
    fold_left
      (fun text kv =>
         sub true (RGrp 1 (alternatives (snd kv)))
             (fun _ => capitalize (fst kv)) text) d text
    = fold_left expand_abbrev d text.
Proof.
  induction d as [|[key syns] d IH]; intros Hwf text; [reflexivity|].
  cbn [fold_left fst snd].
  destruct (Hwf key syns) as [Hne Hall]; [now left|].
  unfold sub. rewrite (sub_expand_go key syns Hne Hall).
  change (expand_go key syns text 0) with (expand_abbrev text (key, syns)).
  apply IH. intros k s Hin. apply (Hwf k). now right.
Qed.

(** C8, amended (abbreviation expansion).  For each entry of the
    dictionary in turn, every occurrence of a variant, found left to
    right and case-insensitively, is replaced by the capitalised key
    wherever it stands, also inside a larger token; then whitespace is
    collapsed and trimmed.  There is no whole-token condition. *)
Theorem abbreviations_expand_everywhere (text : str)
        (dict_norm_abbrev : list (str * list str)) :
  (forall key synonyms,
      In (key, synonyms) dict_norm_abbrev ->
      synonyms <> [] /\ Forall (fun v => v <> []) synonyms) ->
  clean_abbrev_address text dict_norm_abbrev
  = strip (sub false spaces (fun _ => txt " ")
               (fold_left expand_abbrev dict_norm_abbrev text)).
Proof.
  intros Hwf. unfold clean_abbrev_address.
  now rewrite (fold_sub_expand dict_norm_abbrev Hwf).
Qed.

Lemma abbreviations_expand_everywhere_witness :
  clean_abbrev_address (txt "Xtp.y") DICT_NORM_ABBREV
  = strip (sub false spaces (fun _ => txt " ")
               (fold_left expand_abbrev DICT_NORM_ABBREV (txt "Xtp.y")))
  /\ fold_left expand_abbrev DICT_NORM_ABBREV (txt "Xtp.y") = txt "XTp y".
Proof.
  split; [|reflexivity].
  apply (abbreviations_expand_everywhere (txt "Xtp.y") DICT_NORM_ABBREV).
  intros key synonyms Hin.
  repeat (destruct Hin as [Hin|Hin];
          [injection Hin as <- <-;
           split; [discriminate | repeat constructor; discriminate]|]).
  destruct Hin.
Defined.

(** C8 as stated fails: the variant "tp." inside the token "Xtp.y" is
    replaced. *)
Lemma abbreviation_inside_token :
  clean_abbrev_address (txt "Xtp.y") DICT_NORM_ABBREV = txt "XTp y"
  /\ clean_abbrev_address (txt "Xtp.y") DICT_NORM_ABBREV <> txt "Xtp.y".
Proof. vm_compute. split; [reflexivity | discriminate]. Qed.

(* ===================================================================== *)
(** ** Substitution: when nothing changes *)
(* ===================================================================== *)

Section SubSame.
Variable ic : bool.
Variable r : regex.
Variable repl : captures -> str.
Variable Inv : str -> Prop.

Hypothesis Inv_tail : forall c rt, Inv (c :: rt) -> Inv rt.

(** Every match found in a text of the invariant is non-empty and is
    replaced by itself. *)
Hypothesis Hsame : forall l rt ma n caps,
    Inv rt -> match_here ic r l rt ma = Some (n, caps) ->
    1 <= n /\ repl caps = firstn n rt.

Lemma sub_go_same (rt : str) : forall l skip,
  Inv rt -> skip <= length rt ->
  sub_go ic r repl l rt skip = skipn skip rt.
Proof.
  induction rt as [|c rt IH]; intros l skip HI Hskip.
  - cbn [length] in Hskip. assert (skip = 0) by lia. subst skip.
    rewrite sub_go_nil. unfold matches_at.
    destruct (match_here ic r l [] false) as [[n caps]|] eqn:E;
      [|reflexivity].
    pose proof (match_here_length _ _ _ _ _ _ _ E) as Hn.
    apply (Hsame _ _ _ _ _ HI) in E as [H1 _]. cbn in Hn. lia.
  - destruct skip as [|k].
    + rewrite sub_go_cons. unfold matches_at.
      destruct (match_here ic r l (c :: rt) false) as [[n caps]|] eqn:E.
      * pose proof (match_here_length _ _ _ _ _ _ _ E) as Hn.
        destruct (Hsame _ _ _ _ _ HI E) as [H1 H2].
        destruct n as [|n]; [lia|].
        cbn [flat_map snd covered rev app]. rewrite app_nil_r, H2.
        cbn [length] in Hn.
        rewrite IH; [|now apply (Inv_tail c) | lia].
        cbn [firstn skipn]. rewrite <- app_comm_cons.
        now rewrite firstn_skipn.
      * cbn. f_equal. rewrite IH; [reflexivity | now apply (Inv_tail c) |].
        lia.
    + rewrite sub_go_skip. cbn [length] in Hskip.
      rewrite IH; [reflexivity | now apply (Inv_tail c) | lia].
Qed.

Lemma sub_same (text : str) : Inv text -> sub ic r repl text = text.
Proof. intros HI. unfold sub. rewrite sub_go_same; auto. lia. Qed.
End SubSame.

(** A pattern that matches nowhere in a text leaves the text alone. *)
Lemma sub_unmatched ic r repl (P : ascii -> Prop) (text : str) :
  (forall l rt ma n caps,
      Forall P rt -> match_here ic r l rt ma = Some (n, caps) -> False) ->
  Forall P text -> sub ic r repl text = text.
Proof.
  intros Hno Ht. apply (sub_same ic r repl (Forall P)); [| |assumption].
  - intros c rt H. now inversion H.
  - intros l rt ma n caps HP Hm. exfalso. eapply Hno; eauto.
Qed.

(* ===================================================================== *)
(** ** Text that is already capitalised words *)
(* ===================================================================== *)

Lemma single_spaced_tail (c : ascii) (t : str) :
  single_spaced (c :: t) = true -> single_spaced t = true.
Proof. cbn [single_spaced]. intros H. now apply andb_true_iff in H. Qed.


Lemma lstrip_same (t : str) : no_leading_space t -> lstrip t = t.
Proof. destruct t as [|c t]; cbn; [reflexivity|]. now intros ->. Qed.


Lemma single_spaced_token (w rest : str) :
  Forall (fun c => is_space c = false) w ->
  single_spaced (w ++ rest) = single_spaced rest.
Proof.
  induction 1 as [|c w Hc Hw IH]; [reflexivity|].
  cbn [app single_spaced]. now rewrite Hc, IH.
Qed.

Lemma join_tokens_spacing (ws : list str) :
  Forall token ws ->
  single_spaced (join (txt " ") ws) = true
  /\ no_leading_space (join (txt " ") ws).
Proof.
  induction 1 as [|w ws [Hne Hw] Hws [IH1 IH2]]; [now split|].
  destruct ws as [|w' ws].
  - cbn [join]. split.
    + rewrite <- (app_nil_r w). now rewrite single_spaced_token.
    + destruct w as [|c w]; [easy|]. now inversion Hw.
  - change (join (txt " ") (w :: w' :: ws))
      with (w ++ " "%char :: join (txt " ") (w' :: ws)).
    split.
    + rewrite single_spaced_token by assumption.
      cbn [single_spaced]. rewrite IH1.
      destruct (join (txt " ") (w' :: ws)) as [|d rest] eqn:E.
      * exfalso. inversion Hws as [|? ? [Hw' _] _]; subst.
        destruct w' as [|x w']; [easy|]. destruct ws; discriminate E.
      * cbn in IH2. now rewrite IH2.
    + destruct w as [|c w]; [easy|]. now inversion Hw.
Qed.

Lemma split_one_token (w : str) : token w -> split w = [w].
Proof.
  intros [Hne Hw]. induction Hw as [|c w Hc Hw IH]; [easy|].
  cbn [split]. rewrite Hc. destruct w as [|d w]; [reflexivity|].
  inversion Hw as [|? ? Hd _]; subst. rewrite Hd.
  rewrite IH by discriminate. reflexivity.
Qed.

Lemma split_token_app (w rest : str) (c : ascii) :
  token w -> is_space c = true -> split (w ++ c :: rest) = w :: split rest.
Proof.
  intros [Hne Hw] Hc. induction Hw as [|x w Hx Hw IH]; [easy|].
  cbn [app split]. rewrite Hx. destruct w as [|y w].
  - cbn [app]. rewrite Hc. cbn [split]. now rewrite Hc.
  - cbn [app]. inversion Hw as [|? ? Hy _]; subst. rewrite Hy.
    cbn [app] in IH. rewrite IH by discriminate. reflexivity.
Qed.

Lemma split_join (ws : list str) :
  Forall token ws -> split (join (txt " ") ws) = ws.
Proof.
  induction 1 as [|w ws Hw Hws IH]; [reflexivity|].
  destruct ws as [|w' ws].
  - now apply split_one_token.
  - change (join (txt " ") (w :: w' :: ws))
      with (w ++ " "%char :: join (txt " ") (w' :: ws)).
    rewrite split_token_app by (assumption || reflexivity).
    now rewrite IH.
Qed.





Lemma init_cap_words_spacing (s : str) :
  single_spaced (init_cap_words s) = true
  /\ no_leading_space (init_cap_words s).
Proof.
  unfold init_cap_words. destruct s as [|c s]; [now split|].
  apply join_tokens_spacing, Forall_map.
  eapply Forall_impl; [|apply split_tokens]. exact capitalize_token.
Qed.

(* ===================================================================== *)
(** ** When the normaliser has nothing to rewrite *)
(* ===================================================================== *)

















(* ===================================================================== *)
(** ** Further properties of the normaliser *)
(* ===================================================================== *)

(** X1.  The normalised address holds none of the characters of
    [ADDRESS_PUNCTUATIONS], whatever the input. *)
Theorem normalised_address_has_no_punctuation (text : str) :
  Forall not_punct (clean_full_address text).
Proof. apply clean_full_address_not_punct. Qed.


Lemma split_blank (s : str) :
  Forall (fun c => is_space c = true) s -> split s = [].
Proof.
  induction 1 as [|c s Hc Hs IH]; [reflexivity|].
  cbn [split]. now rewrite Hc.
Qed.

(** X3.  An input that is empty or made of whitespace only is normalised
    to the empty string. *)
Theorem blank_input_normalises_to_empty (text : str) :
  Forall (fun c => is_space c = true) text ->
  clean_full_address text = [].
Proof.
  intros H.
  assert (H0 : init_cap_words text = []).
  { unfold init_cap_words. destruct text as [|c t]; [reflexivity|].
    now rewrite (split_blank _ H). }
  unfold clean_full_address. rewrite H0. vm_compute. reflexivity.
Qed.

Lemma blank_input_normalises_to_empty_witness :
  clean_full_address (txt "   ") = [].
Proof.
  apply (blank_input_normalises_to_empty (txt "   ")).
  repeat constructor.
Defined.

Lemma digit_in_match (P : ascii -> Prop) ic r l rt ma n caps g :
  (forall d, is_digit d = true -> ~ P d) ->
  Forall P rt -> match_here ic r l rt ma = Some (n, caps) ->
  group g caps <> [] -> Forall (fun d => is_digit d = true) (group g caps) ->
  False.
Proof.
  intros HP Hrt Hm Hne Hd.
  pose proof (group_Forall P _ _ _ _ _ _ _ g Hrt Hm) as Hg.
  destruct (group g caps) as [|d ds]; [easy|].
  inversion Hd; subst. inversion Hg; subst. now apply (HP d).
Qed.

(** X4.  The district and ward number rewritings leave a text without
    digits as it is. *)
Theorem digit_free_text_untouched (text : str) :
  Forall (fun c => is_digit c = false) text ->
  clean_digit_district text = text /\ clean_digit_ward text = text.
Proof.
  intros Ht.
  assert (HP : forall d, is_digit d = true -> ~ is_digit d = false)
    by (intros d H1 H2; congruence).
  assert (Hun : forall ic short long repl t,
             Forall (fun c => is_digit c = false) t ->
             sub ic (unit_number short long) repl t = t).
  { intros ic short long repl t H. apply (sub_unmatched _ _ _ _ _ (fun _ _ _ _ _ Hrt Hm =>
      match match_here_sound _ _ _ _ _ _ _ Hm with
      | ex_intro _ m (ex_intro _ rt' (conj _ (conj D _))) =>
          let '(conj _ (conj H2 H3)) := unit_number_digits _ _ _ _ _ _ _ D in
          digit_in_match _ _ _ _ _ _ _ _ 2 HP Hrt Hm H2 H3
      end) H). }
  assert (Hlz : forall ic letter repl t,
             Forall (fun c => is_digit c = false) t ->
             sub ic (leading_zeros letter) repl t = t).
  { intros ic letter repl t H. apply (sub_unmatched _ _ _ _ _ (fun _ _ _ _ _ Hrt Hm =>
      match match_here_sound _ _ _ _ _ _ _ Hm with
      | ex_intro _ m (ex_intro _ rt' (conj _ (conj D _))) =>
          let '(conj _ (conj H2 H3)) := leading_zeros_digits _ _ _ _ _ _ D in
          digit_in_match _ _ _ _ _ _ _ _ 1 HP Hrt Hm H2 H3
      end) H). }
  split.
  - unfold clean_digit_district. now rewrite Hun, Hlz.
  - unfold clean_digit_ward. rewrite Hun by assumption.
    rewrite (sub_unmatched false _ _ (fun c => is_digit c = false) text);
      [now rewrite Hlz | | assumption].
    intros l rt ma n caps Hrt Hm.
    pose proof Hm as Hm'.
    apply match_here_sound in Hm' as [m [rt' [_ [D _]]]].
    apply letter_number_digits in D as (_ & H2 & H3).
    exact (digit_in_match _ _ _ _ _ _ _ _ 1 HP Hrt Hm H2 H3).
Qed.

Lemma digit_free_text_untouched_witness :
  clean_digit_district (txt "Quan Mot, p. Ben Nghe") = txt "Quan Mot, p. Ben Nghe"
  /\ clean_digit_ward (txt "Quan Mot, p. Ben Nghe") = txt "Quan Mot, p. Ben Nghe".
Proof.
  apply (digit_free_text_untouched (txt "Quan Mot, p. Ben Nghe")).
  repeat constructor.
Defined.

(* ===================================================================== *)
(** ** Further properties of the string helpers *)
(* ===================================================================== *)

(** X5.  [replace_last_occurrences] on a non-empty [substr] that occurs:
    the target splits around the occurrence at the greatest index, and the
    result is the same split with [replacement] in place of [substr]. *)
Theorem replace_last_occurrences_spec (target substr replacement : str) :
  substr <> [] ->
  rfind target substr <> (-1)%Z ->
  exists before after,
    target = before ++ substr ++ after
    /\ replace_last_occurrences target substr replacement
       = before ++ replacement ++ after
    /\ rfind target substr = len before
    /\ forall j, length before < j -> ~ occurs_at substr target j.
Proof.
  intros Hne H. destruct (rfind_found _ _ H) as [i [Hi [Ho Hlast]]].
  exists (firstn i target), (skipn (i + length substr) target).
  assert (Hlen : length (firstn i target) = i).
  { apply firstn_length_le. apply Ho. }
  repeat split.
  - now apply occurs_at_split.
  - unfold replace_last_occurrences. destruct substr as [|c w]; [easy|].
    destruct (Z.eqb_spec (rfind target (c :: w)) (-1)) as [E|_]; [easy|].
    rewrite Hi. unfold slice_to, slice_from, len.
    rewrite Nat2Z.id. do 3 f_equal. lia.
  - unfold len. now rewrite Hlen.
  - rewrite Hlen. exact Hlast.
Qed.

Lemma replace_last_occurrences_spec_witness :
  exists before after,
    txt "Ha Noi, Ha Noi" = before ++ txt "Ha Noi" ++ after
    /\ replace_last_occurrences (txt "Ha Noi, Ha Noi") (txt "Ha Noi") (txt "HN")
       = before ++ txt "HN" ++ after
    /\ rfind (txt "Ha Noi, Ha Noi") (txt "Ha Noi") = len before
    /\ forall j, length before < j ->
                 ~ occurs_at (txt "Ha Noi") (txt "Ha Noi, Ha Noi") j.
Proof.
  apply (replace_last_occurrences_spec
           (txt "Ha Noi, Ha Noi") (txt "Ha Noi") (txt "HN")).
  - discriminate.
  - vm_compute. discriminate.
Defined.

(** X6.  [replace_last_occurrences] returns the target unchanged when
    [substr] is empty or does not occur in it. *)
Theorem replace_last_occurrences_unchanged (target substr replacement : str) :
  substr = [] \/ (forall i, ~ occurs_at substr target i) ->
  replace_last_occurrences target substr replacement = target.
Proof.
  intros [-> | Hno]; [reflexivity|].
  unfold replace_last_occurrences. destruct substr as [|c w]; [reflexivity|].
  destruct (Z.eqb_spec (rfind target (c :: w)) (-1)) as [_|Hne];
    [reflexivity|].
  destruct (rfind_found _ _ Hne) as [i [_ [Ho _]]]. now apply Hno in Ho.
Qed.

Lemma replace_last_occurrences_unchanged_witness :
  replace_last_occurrences (txt "12 Le Loi,") [] (txt "x") = txt "12 Le Loi,".
Proof.
  apply (replace_last_occurrences_unchanged (txt "12 Le Loi,") [] (txt "x")).
  now left.
Defined.

(** X7.  [last_index_of_regex] returns [-1] or an index between [0] and
    the length of the text at which the pattern matches. *)
Theorem last_index_of_regex_range (text : str) (pattern : regex) :
  last_index_of_regex text pattern = (-1)%Z
  \/ exists i ma n caps,
      last_index_of_regex text pattern = Z.of_nat i
      /\ i <= length text
      /\ match_here false pattern (rev (firstn i text)) (skipn i text) ma
         = Some (n, caps).
Proof.
  destruct (Z.eq_dec (last_index_of_regex text pattern) (-1)) as [H|H];
    [now left | right].
  now apply last_index_of_regex_sound.
Qed.

(* ===================================================================== *)
(** ** Further properties of the resolver *)
(* ===================================================================== *)

(** X8.  The province stage by [rfind]: the province a run finds is an
    entry of the dictionary, the winning word is one of its words, the
    recorded index is the greatest index at which that word occurs, no
    word of any province occurs further to the right, and no word whose
    last occurrence is at the same index is longer. *)
Theorem province_is_rightmost_longest
        input_address db_provinces db_districts db_wards special_ending st :
  parse_locals input_address db_provinces db_districts db_wards special_ending
  = Ok st ->
  truthy (founded (province_pick st)) = true ->
  let pp := province_pick st in
  (exists data, In (founded pp, data) db_provinces
                /\ In (choose_word pp) (p_words data))
  /\ largest_index pp = rfind (address0 st) (choose_word pp)
  /\ (0 <= largest_index pp)%Z
  /\ forall key data w,
      In (key, data) db_provinces -> In w (p_words data) ->
      (rfind (address0 st) w <= largest_index pp)%Z
      /\ (rfind (address0 st) w = largest_index pp ->
          (len w <= len (choose_word pp))%Z).
Proof.
  intros Hrun Ht pp. apply parse_locals_run in Hrun.
  destruct (run_selects _ _ _ _ _ _ Hrun) as (Sp & _).
  fold pp in Sp.
  destruct Sp as [[E _] | (Hin & Hidx & Hpos & Hmax)].
  - subst pp. rewrite E in Ht. discriminate.
  - split; [|split; [|split]].
    + now apply in_pairs_of in Hin.
    + exact Hidx.
    + lia.
    + intros key data w Hk Hw. apply (Hmax key).
      apply in_pairs_of. now exists data.
Qed.

Lemma province_is_rightmost_longest_witness :
  exists st,
    parse_locals (txt "12 Ha Noi, Ben Nghe, Quan 1, Ha Noi") ex_provinces
                 ex_districts ex_wards SPECIAL_ENDING = Ok st
    /\ founded (province_pick st) = txt "hn"
    /\ largest_index (province_pick st) = 22%Z
    /\ largest_index (province_pick st)
       = rfind (address0 st) (choose_word (province_pick st)).
Proof.
  destruct (parse_locals (txt "12 Ha Noi, Ben Nghe, Quan 1, Ha Noi")
                         ex_provinces ex_districts ex_wards SPECIAL_ENDING)
    as [st|k] eqn:E; [|vm_compute in E; discriminate].
  exists st. split; [reflexivity|].
  assert (H : founded (province_pick st) = txt "hn"
              /\ largest_index (province_pick st) = 22%Z
              /\ truthy (founded (province_pick st)) = true).
  { vm_compute in E. apply Ok_inj in E. subst st. vm_compute. tauto. }
  destruct H as (H1 & H2 & Ht).
  split; [assumption|]. split; [assumption|].
  exact (proj1 (proj2 (province_is_rightmost_longest
                         (txt "12 Ha Noi, Ben Nghe, Quan 1, Ha Noi")
                         ex_provinces ex_districts ex_wards SPECIAL_ENDING
                         st E Ht))).
Defined.

(** X9.  Wards follow districts: a run that finds no district finds no
    ward and removes nothing more; a ward a run finds is listed among the
    wards of the district it found, and the winning word is a word of that
    ward. *)
Theorem ward_within_district
        input_address db_provinces db_districts db_wards special_ending st :
  parse_locals input_address db_provinces db_districts db_wards special_ending
  = Ok st ->
  (truthy (founded (district_pick st)) = false ->
   ward_pick st = no_pick /\ address4 st = address3 st
   /\ address3 st = address2 st)
  /\ (truthy (founded (ward_pick st)) = true ->
      exists data wdata,
        get db_districts (founded (district_pick st)) = Some data
        /\ In (founded (ward_pick st)) (d_ward data)
        /\ get db_wards (founded (ward_pick st)) = Some wdata
        /\ In (choose_word (ward_pick st)) (w_words wdata)).
Proof.
  intros Hrun. apply parse_locals_run in Hrun.
  destruct (run_selects _ _ _ _ _ _ Hrun) as (_ & _ & Sw).
  destruct (run_words_occur _ _ _ _ _ _ Hrun) as (_ & _ & Ow).
  destruct Hrun as (_ & _ & _ & _ & _ & H3 & _ & Hwp & H4 & _).
  split.
  - intros Hd. rewrite Hd in *. now rewrite H4, H3.
  - intros Ht. destruct (Ow Ht) as [Hd _]. rewrite Hd in Sw.
    destruct Sw as [data [Hg S]].
    destruct (selects_truthy _ _ _ S Ht) as (Hin & _).
    apply in_unit_pairs in Hin as (Hu & wdata & Hgw & Hw).
    now exists data, wdata.
Qed.

Lemma ward_within_district_witness :
  exists st,
    parse_locals (txt "12 Ben Nghe, P.1, Q1, Tp Thanh Pho Hcm") ex_provinces
                 ex_districts ex_wards SPECIAL_ENDING = Ok st
    /\ founded (district_pick st) = txt "q1"
    /\ founded (ward_pick st) = txt "bn"
    /\ exists data wdata,
        get ex_districts (founded (district_pick st)) = Some data
        /\ In (founded (ward_pick st)) (d_ward data)
        /\ get ex_wards (founded (ward_pick st)) = Some wdata
        /\ In (choose_word (ward_pick st)) (w_words wdata).
Proof.
  destruct (parse_locals (txt "12 Ben Nghe, P.1, Q1, Tp Thanh Pho Hcm")
                         ex_provinces ex_districts ex_wards SPECIAL_ENDING)
    as [st|k] eqn:E; [|vm_compute in E; discriminate].
  exists st. split; [reflexivity|].
  assert (H : founded (district_pick st) = txt "q1"
              /\ founded (ward_pick st) = txt "bn"
              /\ truthy (founded (ward_pick st)) = true).
  { vm_compute in E. apply Ok_inj in E. subst st. vm_compute. tauto. }
  destruct H as (H1 & H2 & Ht).
  split; [assumption|]. split; [assumption|].
  exact (proj2 (ward_within_district
                  (txt "12 Ben Nghe, P.1, Q1, Tp Thanh Pho Hcm")
                  ex_provinces ex_districts ex_wards SPECIAL_ENDING st E) Ht).
Defined.

Lemma bind_error {A B : Type} (r : result A) (f : A -> result B) (k : str) :
  bind r f = KeyError k ->
  r = KeyError k \/ exists a, r = Ok a /\ f a = KeyError k.
Proof.
  destruct r as [a|k']; simpl; intros H; [right; now exists a | left; congruence].
Qed.

Lemma item_error {V : Type} (d : dict V) (k k' : str) :
  item d k = KeyError k' -> k' = k /\ get d k = None.
Proof.
  unfold item. destruct (get d k); intros H; [discriminate|].
  injection H as <-. now split.
Qed.

Lemma in_get_some {V : Type} (d : dict V) (k : str) (v : V) :
  In (k, v) d -> exists v', get d k = Some v'.
Proof.
  induction d as [|[k' v'] d IH]; simpl; intros Hin; [destruct Hin|].
  destruct (str_eqb k k') eqn:E; [now exists v'|].
  destruct Hin as [Heq|Hin]; [|now apply IH].
  injection Heq as -> ->.
  assert (str_eqb k k = true) by now apply str_eqb_eq. congruence.
Qed.

Lemma scan_units_error {V : Type} (index : str -> Z) (words_of : V -> list str)
      (db : dict V) (units : list str) : forall st k,
  scan_units index words_of db units st = KeyError k ->
  In k units /\ get db k = None.
Proof.
  induction units as [|u units IH]; intros st k H; simpl in H;
    [discriminate|].
  apply bind_error in H as [H | [data [_ H]]].
  - apply item_error in H as [-> H]. split; [now left | assumption].
  - apply IH in H as [H1 H2]. split; [now right | assumption].
Qed.

(** A unit a loop over the items of a dictionary finds is a key of it. *)
Lemma scan_items_found {V : Type} (index : str -> Z) (words_of : V -> list str)
      (db : dict V) :
  truthy (founded (scan_items index words_of db no_pick)) = true ->
  exists v, get db (founded (scan_items index words_of db no_pick)) = Some v.
Proof.
  intros Ht. rewrite scan_items_step in *.
  destruct (selects_truthy _ _ _ (selects_loop index _) Ht) as (Hin & _).
  apply in_pairs_of in Hin as [data [Hin _]].
  now apply in_get_some in Hin.
Qed.

Lemma scan_units_found {V : Type} (index : str -> Z) (words_of : V -> list str)
      (db : dict V) (units : list str) (st : pick) :
  scan_units index words_of db units no_pick = Ok st ->
  truthy (founded st) = true ->
  exists v, get db (founded st) = Some v.
Proof.
  intros H Ht. apply scan_units_step in H as [-> _].
  destruct (selects_truthy _ _ _ (selects_loop index _) Ht) as (Hin & _).
  apply in_unit_pairs in Hin as (_ & data & Hg & _). now exists data.
Qed.

(** The only [KeyError] a run can raise is for a key that a unit lists
    and its dictionary lacks. *)
Lemma parse_locals_key_error
      input_address db_provinces db_districts db_wards special_ending k :
  parse_locals input_address db_provinces db_districts db_wards special_ending
  = KeyError k ->
  dangling_key db_provinces db_districts db_wards k.
Proof.
  unfold parse_locals. cbv zeta.
  set (a0 := clean_full_address input_address ++ txt ",").
  set (pp := scan_items (index_plain a0) p_words db_provinces no_pick).
  set (a1 := if truthy (founded pp)
             then replace_last_occurrences a0 (choose_word pp) [] else a0).
  set (a2 := if endswith a1 THANH_PHO then replace a1 THANH_PHO [] else a1).
  intros H.
  apply bind_error in H as [H | [dp [Hdp H]]].
  - (* the district loop *)
    destruct (truthy (founded pp)) eqn:Hp; [|discriminate].
    apply bind_error in H as [H | [data [Hd H]]].
    + apply item_error in H as [_ H].
      destruct (scan_items_found _ _ _ Hp) as [v Hv]. fold pp in Hv.
      congruence.
    + apply item_ok in Hd. apply get_in in Hd.
      apply scan_units_error in H as [H1 H2].
      left. now exists (founded pp), data.
  - assert (Hfd : truthy (founded dp) = true ->
                  exists v, get db_districts (founded dp) = Some v).
    { intros Ht. destruct (truthy (founded pp)) eqn:Hp.
      - apply bind_ok in Hdp as [data [_ Hdp]].
        now apply (scan_units_found _ _ _ _ _ Hdp).
      - apply Ok_inj in Hdp. subst dp. now apply scan_items_found. }
    apply bind_error in H as [H | [pk [_ H]]].
    + (* the inference of the province *)
      destruct (truthy (founded dp)) eqn:Hd; [|discriminate].
      destruct (negb (truthy (founded pp))); [|discriminate].
      cbn [andb] in H. apply bind_error in H as [H | [data [_ H]]];
        [|discriminate].
      apply item_error in H as [_ H]. destruct (Hfd eq_refl). congruence.
    + apply bind_error in H as [H | [wp [_ H]]]; [|discriminate].
      (* the ward loop *)
      destruct (truthy (founded dp)) eqn:Hd; [|discriminate].
      apply bind_error in H as [H | [data [Hg H]]].
      * apply item_error in H as [_ H]. destruct (Hfd eq_refl). congruence.
      * apply item_ok in Hg. apply get_in in Hg.
        apply scan_units_error in H as [H1 H2].
        right. now exists (founded dp), data.
Qed.

Lemma parse_address_key_error
      input_address db_provinces db_districts db_wards special_ending k :
  parse_address input_address db_provinces db_districts db_wards special_ending
  = KeyError k ->
  dangling_key db_provinces db_districts db_wards k.
Proof.
  unfold parse_address. intros H.
  apply bind_error in H as [H | [st [_ H]]]; [|discriminate].
  now apply parse_locals_key_error in H.
Qed.

(** X10.  [parse_address] raises [KeyError] only for a dangling
    reference: a district key listed by a province but missing from the
    district dictionary, or a ward key listed by a district but missing
    from the ward dictionary.  No other lookup of the function can fail. *)
Theorem key_error_is_dangling_reference
        input_address db_provinces db_districts db_wards special_ending k :
  parse_address input_address db_provinces db_districts db_wards special_ending
  = KeyError k ->
  dangling_key db_provinces db_districts db_wards k.
Proof. apply parse_address_key_error. Qed.

Lemma key_error_is_dangling_reference_witness :
  dangling_key ex_provinces ex_districts [] (txt "bn").
Proof.
  apply (key_error_is_dangling_reference
           (txt "12 Le Loi, Q1") ex_provinces ex_districts []
           SPECIAL_ENDING (txt "bn")).
  vm_compute. reflexivity.
Defined.



(* ===================================================================== *)
(** ** Ties in a matching loop *)
(* ===================================================================== *)

Lemma first_best_step (index : str -> Z) (cs : list (str * str)) (st : pick)
      (uw : str * str) :
  (st = no_pick /\ forall u w, In (u, w) cs -> (index w <= -1)%Z)
  \/ first_best index cs st ->
  (step index st uw = no_pick
   /\ forall u w, In (u, w) (cs ++ [uw]) -> (index w <= -1)%Z)
  \/ first_best index (cs ++ [uw]) (step index st uw).
Proof.
  destruct uw as [u w]. unfold step, consider; simpl.
  intros [[-> Hnone] | (pre & post & Hcs & Hidx & Hpos & Hpre & Hpost)].
  - simpl. destruct (Z.gtb_spec (index w) (-1)) as [Hgt|Hle]; simpl.
    + right. exists cs, []. simpl. repeat split; try lia.
      intros u' w' Hin. left. specialize (Hnone _ _ Hin). lia.
    + rewrite andb_false_r; simpl. left. split; [reflexivity|].
      intros u' w' Hin. apply in_app_or in Hin as [Hin|[Heq|[]]].
      * now apply (Hnone u').
      * injection Heq as <- <-. lia.
  - assert (Hall : forall u' w', In (u', w') cs ->
               (index w' < largest_index st)%Z
               \/ (index w' = largest_index st
                   /\ (len w' <= len (choose_word st))%Z)).
    { intros u' w' Hin. rewrite Hcs in Hin.
      apply in_app_or in Hin as [Hin|[Heq|Hin]].
      - destruct (Hpre _ _ Hin) as [H|[H1 H2]]; [now left | right; lia].
      - injection Heq as <- <-. right. lia.
      - now apply (Hpost u'). }
    right.
    destruct (Z.gtb_spec (index w) (largest_index st)) as [Hgt|Hle]; simpl.
    + exists cs, []. simpl. repeat split; try lia.
      intros u' w' Hin. left. destruct (Hall _ _ Hin); lia.
    + destruct (Z.eqb_spec (index w) (largest_index st)) as [Heq|Hne]; simpl.
      * destruct (Z.gtb_spec (largest_index st) (-1)) as [_|Hbad]; [|lia].
        simpl.
        destruct (Z.gtb_spec (len w) (len (choose_word st))) as [Hlen|Hlen].
        -- exists cs, []. simpl. repeat split; try lia.
           intros u' w' Hin. destruct (Hall _ _ Hin); [left|right]; lia.
        -- exists pre, (post ++ [(u, w)]). repeat split; auto.
           ++ rewrite Hcs, <- app_assoc. reflexivity.
           ++ intros u' w' Hin. apply in_app_or in Hin as [Hin|[E|[]]].
              ** now apply (Hpost u').
              ** injection E as <- <-. right. lia.
      * exists pre, (post ++ [(u, w)]). repeat split; auto.
        -- rewrite Hcs, <- app_assoc. reflexivity.
        -- intros u' w' Hin. apply in_app_or in Hin as [Hin|[E|[]]].
           ++ now apply (Hpost u').
           ++ injection E as <- <-. left. lia.
Qed.

Lemma first_best_fold (index : str -> Z) (cs : list (str * str)) :
  forall pre st,
    (st = no_pick /\ forall u w, In (u, w) pre -> (index w <= -1)%Z)
    \/ first_best index pre st ->
    (fold_left (step index) cs st = no_pick
     /\ forall u w, In (u, w) (pre ++ cs) -> (index w <= -1)%Z)
    \/ first_best index (pre ++ cs) (fold_left (step index) cs st).
Proof.
  induction cs as [|uw cs IH]; intros pre st H; simpl.
  - now rewrite app_nil_r.
  - replace (pre ++ uw :: cs) with ((pre ++ [uw]) ++ cs)
      by (now rewrite <- app_assoc).
    apply IH. now apply first_best_step.
Qed.

(** A matching loop started afresh that finds a unit holds the first
    unbeaten candidate. *)
Lemma first_best_loop (index : str -> Z) (cs : list (str * str)) :
  truthy (founded (fold_left (step index) cs no_pick)) = true ->
  first_best index cs (fold_left (step index) cs no_pick).
Proof.
  intros Ht.
  destruct (first_best_fold index cs [] no_pick) as [[E _] | H].
  - left. split; [reflexivity | intros u w []].
  - rewrite E in Ht. discriminate.
  - exact H.
Qed.

Lemma run_first_best input_address db_provinces db_districts db_wards
      special_ending st :
  run_of input_address db_provinces db_districts db_wards special_ending st ->
  (truthy (founded (province_pick st)) = true ->
   first_best (index_plain (address0 st)) (pairs_of p_words db_provinces)
              (province_pick st))
  /\ (truthy (founded (district_pick st)) = true ->
      if truthy (founded (province_pick st))
      then exists data,
          get db_provinces (founded (province_pick st)) = Some data
          /\ first_best (index_anchored special_ending (address2 st))
                        (unit_pairs d_words db_districts (p_district data))
                        (district_pick st)
      else first_best (index_bare (address2 st))
                      (pairs_of d_words db_districts) (district_pick st))
  /\ (truthy (founded (ward_pick st)) = true ->
      exists data,
        get db_districts (founded (district_pick st)) = Some data
        /\ first_best (index_anchored special_ending (address3 st))
                      (unit_pairs w_words db_wards (d_ward data))
                      (ward_pick st)).
Proof.
  intros (_ & Hpp & _ & _ & Hdp & _ & _ & Hwp & _).
  split; [|split].
  - intros Ht. rewrite Hpp in *. rewrite scan_items_step in *.
    now apply first_best_loop.
  - intros Ht. destruct (truthy (founded (province_pick st))).
    + destruct Hdp as [data [Hg Hs]]. exists data. split; [assumption|].
      apply scan_units_step in Hs as [Hs _]. rewrite Hs in *.
      now apply first_best_loop.
    + rewrite Hdp in *. rewrite scan_items_step in *.
      now apply first_best_loop.
  - intros Ht. destruct (truthy (founded (district_pick st))).
    + destruct Hwp as [data [Hg Hs]]. exists data. split; [assumption|].
      apply scan_units_step in Hs as [Hs _]. rewrite Hs in *.
      now apply first_best_loop.
    + rewrite Hwp in Ht. discriminate.
Qed.

(** X12.  Ties go to the first candidate.  In each of the three matching
    loops of [parse_address] the unit found is the first candidate in scan
    order that no other beats: every candidate scanned before it has a
    smaller index, or the same index and a shorter word; no candidate
    scanned after it has a greater index, or the same index and a longer
    word.  So an alias shared by two units resolves to the unit scanned
    first. *)
Theorem ties_go_to_first_candidate
        input_address db_provinces db_districts db_wards special_ending st :
  parse_locals input_address db_provinces db_districts db_wards special_ending
  = Ok st ->
  (truthy (founded (province_pick st)) = true ->
   first_best (index_plain (address0 st)) (pairs_of p_words db_provinces)
              (province_pick st))
  /\ (truthy (founded (district_pick st)) = true ->
      if truthy (founded (province_pick st))
      then exists data,
          get db_provinces (founded (province_pick st)) = Some data
          /\ first_best (index_anchored special_ending (address2 st))
                        (unit_pairs d_words db_districts (p_district data))
                        (district_pick st)
      else first_best (index_bare (address2 st))
                      (pairs_of d_words db_districts) (district_pick st))
  /\ (truthy (founded (ward_pick st)) = true ->
      exists data,
        get db_districts (founded (district_pick st)) = Some data
        /\ first_best (index_anchored special_ending (address3 st))
                      (unit_pairs w_words db_wards (d_ward data))
                      (ward_pick st)).
Proof.
  intros H. apply parse_locals_run in H.
  exact (run_first_best _ _ _ _ _ _ H).
Qed.

Lemma ties_go_to_first_candidate_witness :
  exists st,
    parse_locals (txt "12 Le Loi, Tan Binh") ex_provinces tie_districts []
                 SPECIAL_ENDING = Ok st
    /\ founded (district_pick st) = txt "tb"
    /\ province_key st = txt "hcm"
    /\ first_best (index_bare (address2 st)) (pairs_of d_words tie_districts)
                  (district_pick st).
Proof.
  destruct (parse_locals (txt "12 Le Loi, Tan Binh") ex_provinces
                         tie_districts [] SPECIAL_ENDING)
    as [st|k] eqn:E; [|vm_compute in E; discriminate].
  exists st. split; [reflexivity|].
  assert (H : founded (district_pick st) = txt "tb"
              /\ province_key st = txt "hcm"
              /\ truthy (founded (district_pick st)) = true
              /\ truthy (founded (province_pick st)) = false).
  { vm_compute in E. apply Ok_inj in E. subst st. vm_compute. tauto. }
  destruct H as (H1 & H2 & Ht & Hp).
  split; [assumption|]. split; [assumption|].
  pose proof (proj1 (proj2 (ties_go_to_first_candidate
                              (txt "12 Le Loi, Tan Binh") ex_provinces
                              tie_districts [] SPECIAL_ENDING st E)) Ht) as F.
  rewrite Hp in F. exact F.
Defined.

(* ===================================================================== *)
(** ** What the regex stages find *)
(* ===================================================================== *)

Lemma starts_startswith (w : str) : forall rt,
  starts false w rt = startswith w rt.
Proof.
  induction w as [|x w IH]; intros [|y rt]; simpl; try reflexivity.
  now rewrite IH.
Qed.

Lemma matches_at_some (ic : bool) (r : regex) (l rt : str) :
  match_here ic r l rt false <> None -> matches_at ic r l rt <> [].
Proof.
  unfold matches_at.
  destruct (match_here ic r l rt false) as [[[|n] c]|]; easy.
Qed.

(** A scan that is not inside a match reports a match as soon as the
    pattern matches at some position ahead. *)
Lemma finditer_go_complete (r : regex) (Q : str -> Prop) :
  (forall l rt, Q rt -> match_here false r l rt false <> None) ->
  forall rt l pos i,
    i <= length rt -> Q (skipn i rt) ->
    finditer_go false r l rt pos 0 <> [].
Proof.
  intros HQ. induction rt as [|c rt IH]; intros l pos i Hi Hq.
  - assert (i = 0) as -> by (simpl in Hi; lia). simpl in Hq.
    cbn [finditer_go]. intros E. apply map_eq_nil in E.
    now apply (matches_at_some false r l [] (HQ l [] Hq)).
  - cbn [finditer_go].
    destruct (matches_at false r l (c :: rt)) as [|m ms] eqn:E.
    + cbn [map app covered rev]. change (0 - 1) with 0.
      destruct i as [|i].
      * exfalso. now apply (matches_at_some false r l (c :: rt) (HQ l _ Hq)).
      * apply (IH _ _ i); [simpl in Hi; lia | exact Hq].
    + discriminate.
Qed.

Lemma last_index_complete (r : regex) (Q : str -> Prop) (text : str) (i : nat) :
  (forall l rt, Q rt -> match_here false r l rt false <> None) ->
  i <= length text -> Q (skipn i text) ->
  last_index_of_regex text r <> (-1)%Z.
Proof.
  intros HQ Hi Hq.
  pose proof (finditer_go_complete r Q HQ text [] 0%Z i Hi Hq) as Hne.
  unfold last_index_of_regex, finditer.
  destruct (rev (finditer_go false r [] text 0 0)) as [|[[s n] c] ms] eqn:E.
  - apply (f_equal (@rev _)) in E. rewrite rev_involutive in E. easy.
  - assert (Hin : In (s, n, c) (finditer_go false r [] text 0 0)).
    { apply in_rev. rewrite E. now left. }
    apply finditer_go_sound in Hin as [j [ma [-> _]]]. lia.
Qed.

Lemma match_here_lit_some (w l rt : str) :
  startswith w rt = true -> match_here false (lit w) l rt false <> None.
Proof.
  intros H. unfold match_here. rewrite rmatch_lit, starts_startswith, H.
  cbn [andb]. discriminate.
Qed.

Lemma match_here_anchored_some (p : ascii -> bool) (w l rt : str) (d : ascii) :
  startswith w rt = true -> nth_error rt (length w) = Some d -> p d = true ->
  match_here false (anchored (RCls p) w) l rt false <> None.
Proof.
  intros H Hd Hp. unfold match_here, anchored. cbn [rmatch].
  rewrite rmatch_lit, starts_startswith, H.
  assert (E : skipn (length w) rt = d :: skipn (S (length w)) rt).
  { clear H. revert rt Hd. induction w as [|x w IH]; intros [|y rt] Hd;
      simpl in *; try discriminate.
    - now injection Hd as ->.
    - now apply IH. }
  rewrite E. cbn [rmatch]. rewrite Hp. cbn [andb]. discriminate.
Qed.

Lemma nth_error_skipn (text a b : str) (d : ascii) (i : nat) :
  i <= length text -> skipn i text = a ++ d :: b ->
  nth_error text (i + length a) = Some d.
Proof.
  intros Hi E. rewrite <- (firstn_skipn i text) at 1.
  rewrite nth_error_app2; rewrite firstn_length_le by assumption; [|lia].
  replace (i + length a - i) with (length a) by lia.
  rewrite E, nth_error_app2 by lia. now rewrite Nat.sub_diag.
Qed.

Lemma nth_error_of_skipn (text : str) (i n : nat) :
  nth_error (skipn i text) n = nth_error text (i + n).
Proof.
  revert text. induction i as [|i IH]; intros [|c t]; simpl; auto.
  now destruct n.
Qed.

(** The anchored index of a word is an index at which the word stands
    followed by a character of the class. *)
Lemma index_anchored_terminated (p : ascii -> bool) (address word : str) :
  index_anchored (RCls p) address word <> (-1)%Z ->
  exists i, index_anchored (RCls p) address word = Z.of_nat i
            /\ terminated_at p word address i.
Proof.
  intros H. apply last_index_of_regex_sound in H as [i [ma [n [c [E [Hi Hm]]]]]].
  exists i. split; [exact E|].
  apply match_here_sound in Hm as [m [rt' [Hs [D _]]]].
  unfold anchored in D.
  apply den_seq_inv in D as [m1 [m2 [c1 [c2 [-> [_ [D1 D2]]]]]]].
  apply den_lit_startswith in D1. subst m1.
  apply den_cls_inv in D2 as [d [-> [_ Hp]]].
  rewrite <- app_assoc in Hs. split; [split; [exact Hi|]|].
  - rewrite Hs. apply startswith_app.
  - exists d. split; [|exact Hp]. now apply (nth_error_skipn _ _ rt').
Qed.

Lemma index_anchored_complete (p : ascii -> bool) (address word : str)
      (i : nat) :
  terminated_at p word address i ->
  index_anchored (RCls p) address word <> (-1)%Z.
Proof.
  intros [[Hi Hs] [d [Hd Hp]]].
  apply (last_index_complete _
           (fun rt => startswith word rt = true
                      /\ exists d, nth_error rt (length word) = Some d
                                   /\ p d = true) address i).
  - intros l rt [H1 [d' [H2 H3]]].
    now apply (match_here_anchored_some p word l rt d').
  - exact Hi.
  - split; [exact Hs|]. exists d. split; [|exact Hp].
    now rewrite nth_error_of_skipn.
Qed.

Lemma index_bare_complete (address word : str) (i : nat) :
  occurs_at word address i -> index_bare address word <> (-1)%Z.
Proof.
  intros [Hi Hs].
  apply (last_index_complete _ (fun rt => startswith word rt = true)
                             address i).
  - intros l rt H. now apply match_here_lit_some.
  - exact Hi.
  - exact Hs.
Qed.

(** X13.  The index of a literal pattern against [rfind]: the regex index
    is [-1] exactly when [rfind] is, it is the index of an occurrence of
    the word, and it never lies to the right of [rfind]. *)
Theorem bare_index_against_rfind (address word : str) :
  (index_bare address word = (-1)%Z <-> rfind address word = (-1)%Z)
  /\ (-1 <= index_bare address word <= rfind address word)%Z
  /\ (index_bare address word <> (-1)%Z ->
      exists i, index_bare address word = Z.of_nat i
                /\ occurs_at word address i).
Proof.
  assert (Hle : (-1 <= index_bare address word <= rfind address word)%Z).
  { destruct (Z.eq_dec (index_bare address word) (-1)) as [E|Hne].
    - rewrite E. pose proof (rfind_lower address word). lia.
    - apply index_bare_occurs in Hne as [i [-> Ho]].
      apply rfind_rightmost in Ho. lia. }
  split; [split|split].
  - intros E. destruct (Z.eq_dec (rfind address word) (-1)) as [|Hne];
      [assumption|].
    apply rfind_found in Hne as [i [_ [Ho _]]].
    now apply index_bare_complete in Ho.
  - apply index_bare_none.
  - exact Hle.
  - apply index_bare_occurs.
Qed.

(** X14.  The index of a word followed by a character class: the regex
    index is [-1] exactly when the word stands nowhere in the address
    followed by a character of the class; otherwise it is an index at
    which the word stands followed by such a character. *)
Theorem anchored_index_needs_terminator (p : ascii -> bool)
        (address word : str) :
  (index_anchored (RCls p) address word = (-1)%Z <->
   forall i, ~ terminated_at p word address i)
  /\ (index_anchored (RCls p) address word <> (-1)%Z ->
      exists i, index_anchored (RCls p) address word = Z.of_nat i
                /\ terminated_at p word address i).
Proof.
  split; [split|].
  - intros E i Ht. now apply index_anchored_complete in Ht.
  - intros Hno.
    destruct (Z.eq_dec (index_anchored (RCls p) address word) (-1))
      as [|Hne]; [assumption|].
    apply index_anchored_terminated in Hne as [i [_ Ht]]. now apply Hno in Ht.
  - apply index_anchored_terminated.
Qed.

(* ===================================================================== *)
(** ** Spacing of the normalised address *)
(* ===================================================================== *)

Section SubSpacing.
Variable ic : bool.
Variable r : regex.
Variable repl : captures -> str.

(** Every match is non-empty and is replaced by a non-empty text free of
    whitespace. *)
Hypothesis Hword : forall l rt ma n caps,
    match_here ic r l rt ma = Some (n, caps) ->
    1 <= n /\ repl caps <> []
    /\ Forall (fun c => is_space c = false) (repl caps).

Lemma word_keeps_end : forall l rt ma n caps,
  match_here ic r l rt ma = Some (n, caps) ->
  1 <= n /\ (n = length rt -> ends_nonspace (repl caps)).
Proof.
  intros l rt ma n caps Hm. apply Hword in Hm as (H1 & H2 & H3).
  split; [assumption | intros _; now apply ends_nonspace_all].
Qed.

Lemma sub_go_head (l rt : str) :
  no_leading_space rt -> no_leading_space (sub_go ic r repl l rt 0).
Proof.
  destruct rt as [|c rt]; intros Hc.
  - rewrite sub_go_nil, (matches_at_end ic r repl word_keeps_end). exact I.
  - rewrite sub_go_cons.
    destruct (matches_at_single ic r repl word_keeps_end l (c :: rt))
      as [-> | [n [caps [-> Hm]]]].
    + exact Hc.
    + cbn [flat_map snd covered rev app]. rewrite app_nil_r.
      apply Hword in Hm as (_ & Hne & Hsp).
      destruct (repl caps) as [|x xs]; [easy|]. now inversion Hsp.
Qed.

Lemma sub_go_nonempty (l rt : str) :
  rt <> [] -> sub_go ic r repl l rt 0 <> [].
Proof.
  destruct rt as [|c rt]; [easy|]. intros _. rewrite sub_go_cons.
  destruct (matches_at_single ic r repl word_keeps_end l (c :: rt))
    as [-> | [n [caps [-> Hm]]]].
  - discriminate.
  - cbn [flat_map snd covered rev app]. rewrite app_nil_r.
    apply Hword in Hm as (_ & Hne & _).
    destruct (repl caps); [easy | discriminate].
Qed.

Lemma sub_go_spacing (rt : str) : forall l skip,
  single_spaced rt = true ->
  single_spaced (sub_go ic r repl l rt skip) = true.
Proof.
  induction rt as [|c rt IH]; intros l skip Hs.
  - destruct skip; [|reflexivity].
    now rewrite sub_go_nil, (matches_at_end ic r repl word_keeps_end).
  - pose proof (single_spaced_tail _ _ Hs) as Hs'.
    destruct skip as [|k]; [|rewrite sub_go_skip; now apply IH].
    rewrite sub_go_cons.
    destruct (matches_at_single ic r repl word_keeps_end l (c :: rt))
      as [-> | [n [caps [-> Hm]]]].
    + cbn [flat_map covered rev app].
      specialize (IH (c :: l) 0 Hs').
      cbn [single_spaced] in Hs |- *. rewrite IH, andb_true_r.
      apply andb_true_iff in Hs as [Hs _].
      destruct (is_space c); [|reflexivity].
      apply andb_true_iff in Hs as [Hb Hnext]. rewrite Hb. cbn [andb].
      destruct rt as [|d rt]; [discriminate|].
      assert (Hd : no_leading_space (d :: rt)).
      { cbn. now destruct (is_space d). }
      pose proof (sub_go_head (c :: l) (d :: rt) Hd) as Hh.
      pose proof (sub_go_nonempty (c :: l) (d :: rt)) as Hn.
      destruct (sub_go ic r repl (c :: l) (d :: rt) 0) as [|e out];
        [now exfalso; apply Hn|].
      cbn in Hh. now rewrite Hh.
    + cbn [flat_map snd covered rev app]. rewrite app_nil_r.
      apply Hword in Hm as (_ & _ & Hsp).
      rewrite single_spaced_token by assumption. now apply IH.
Qed.

Lemma sub_spacing (text : str) :
  single_spaced text = true /\ no_leading_space text ->
  single_spaced (sub ic r repl text) = true
  /\ no_leading_space (sub ic r repl text).
Proof.
  intros [H1 H2]. split; [now apply sub_go_spacing | now apply sub_go_head].
Qed.
End SubSpacing.

Lemma word_of_digits (x : ascii) (ds : str) :
  is_space x = false -> Forall (fun d => is_digit d = true) ds ->
  [x] ++ ds <> [] /\ Forall (fun c => is_space c = false) ([x] ++ ds).
Proof.
  intros Hx Hds. split; [discriminate|]. constructor; [assumption|].
  eapply Forall_impl; [|exact Hds]. exact digit_not_space.
Qed.

Lemma clean_digit_district_spacing (t : str) :
  single_spaced t = true /\ no_leading_space t ->
  single_spaced (clean_digit_district t) = true
  /\ no_leading_space (clean_digit_district t).
Proof.
  intros Ht. unfold clean_digit_district.
  apply sub_spacing.
  { intros l rt ma n caps Hm.
    apply match_here_sound in Hm as [m [rt' [-> [D [-> _]]]]].
    apply leading_zeros_digits in D as (H1 & H2 & H3).
    split; [assumption | now apply word_of_digits]. }
  apply sub_spacing; [|assumption].
  intros l rt ma n caps Hm.
  apply match_here_sound in Hm as [m [rt' [-> [D [-> _]]]]].
  apply unit_number_digits in D as (H1 & H2 & H3).
  split; [assumption | now apply word_of_digits].
Qed.

Lemma clean_digit_ward_spacing (t : str) :
  single_spaced t = true /\ no_leading_space t ->
  single_spaced (clean_digit_ward t) = true
  /\ no_leading_space (clean_digit_ward t).
Proof.
  intros Ht. unfold clean_digit_ward.
  apply sub_spacing.
  { intros l rt ma n caps Hm.
    apply match_here_sound in Hm as [m [rt' [-> [D [-> _]]]]].
    apply leading_zeros_digits in D as (H1 & H2 & H3).
    split; [assumption | now apply word_of_digits]. }
  apply sub_spacing.
  { intros l rt ma n caps Hm.
    apply match_here_sound in Hm as [m [rt' [-> [D [-> _]]]]].
    apply letter_number_digits in D as (H1 & H2 & H3).
    split; [assumption | now apply word_of_digits]. }
  apply sub_spacing; [|assumption].
  intros l rt ma n caps Hm.
  apply match_here_sound in Hm as [m [rt' [-> [D [-> _]]]]].
  apply unit_number_digits in D as (H1 & H2 & H3).
  split; [assumption | now apply word_of_digits].
Qed.

Lemma clean_full_address_spacing (t : str) :
  single_spaced (clean_full_address t) = true
  /\ no_leading_space (clean_full_address t).
Proof.
  unfold clean_full_address.
  apply clean_digit_ward_spacing, clean_digit_district_spacing.
  unfold add_space_separator. apply init_cap_words_spacing.
Qed.

Lemma join_cons (sep w : str) (ws : list str) :
  ws <> [] -> join sep (w :: ws) = w ++ sep ++ join sep ws.
Proof. destruct ws; [easy | reflexivity]. Qed.

Lemma join_cons_head (sep : str) (c : ascii) (ws : list str) :
  join sep (cons_head c ws) = c :: join sep ws.
Proof. destruct ws as [|w [|w' ws]]; reflexivity. Qed.

(** A single-spaced text, its leading blank apart, is its words joined by
    single blanks. *)
Lemma single_spaced_words (t : str) :
  single_spaced t = true -> join (txt " ") (split t) = lstrip t.
Proof.
  induction t as [|c t IH]; intros Hs; [reflexivity|].
  pose proof (single_spaced_tail _ _ Hs) as Hs'. specialize (IH Hs').
  cbn [split lstrip]. destruct (is_space c) eqn:Ec; [exact IH|].
  destruct t as [|d t]; [reflexivity|].
  destruct (is_space d) eqn:Ed.
  - cbn [single_spaced] in Hs'. rewrite Ed in Hs'.
    apply andb_true_iff in Hs' as [Hd _].
    apply andb_true_iff in Hd as [Hb Hnext].
    apply eqb_ascii_true in Hb. subst d.
    destruct t as [|e t]; [discriminate|].
    assert (He : is_space e = false) by now destruct (is_space e).
    cbn [lstrip] in IH. rewrite Ed, He in IH.
    rewrite join_cons; [now rewrite IH|].
    intros E. rewrite E in IH. discriminate.
  - rewrite join_cons_head, IH. cbn [lstrip]. now rewrite Ed.
Qed.

(** X15.  The normalised address is its words joined by single blanks: it
    neither begins nor ends with whitespace, and every whitespace
    character in it is one blank between two words. *)
Theorem normalised_address_is_single_spaced (text : str) :
  clean_full_address text
  = join (txt " ") (split (clean_full_address text))
  /\ single_spaced (clean_full_address text) = true
  /\ no_leading_space (clean_full_address text)
  /\ no_trailing_space (clean_full_address text).
Proof.
  destruct (clean_full_address_spacing text) as [H1 H2].
  split; [|split; [assumption | split; [assumption|]]].
  - rewrite single_spaced_words by assumption. symmetry.
    apply lstrip_same. exact H2.
  - apply clean_full_address_end.
Qed.

(* ===================================================================== *)
(** ** Whitespace runs *)
(* ===================================================================== *)

Lemma span_len_le (p : ascii -> bool) (t : str) : span_len p t <= length t.
Proof.
  induction t as [|c t IH]; simpl; [lia|]. destruct (p c); simpl; lia.
Qed.

(** With a continuation that never fails, greedy repetition takes the
    whole run. *)
Lemma star_greedy_some {A : Type} (p : ascii -> bool)
      (k : str -> str -> option A) :
  (forall l rt, k l rt <> None) ->
  forall rt l,
    star_greedy p l rt k
    = k (rev (firstn (span_len p rt) rt) ++ l) (skipn (span_len p rt) rt).
Proof.
  intros Hk. induction rt as [|c rt IH]; intros l; [reflexivity|].
  cbn [star_greedy span_len]. destruct (p c); [|reflexivity].
  rewrite IH. cbn [firstn skipn rev]. rewrite <- app_assoc. cbn [app].
  destruct (k (rev (firstn (span_len p rt) rt) ++ c :: l)
              (skipn (span_len p rt) rt)) eqn:E; [reflexivity|].
  now apply Hk in E.
Qed.

Lemma match_here_spaces (l rt : str) :
  match_here false spaces l rt false
  = match rt with
    | c :: rt' =>
        if is_space c then Some (S (span_len is_space rt'), []) else None
    | [] => None
    end.
Proof.
  unfold match_here, spaces, plus. cbn [rmatch].
  destruct rt as [|c rt]; [reflexivity|].
  destruct (is_space c); [|reflexivity].
  rewrite star_greedy_some by (intros; discriminate).
  cbn [andb]. do 2 f_equal.
  rewrite length_app, length_rev, firstn_length_le by apply span_len_le.
  change (length (c :: l)) with (S (length l)). lia.
Qed.

Lemma sub_go_spaces (rt : str) : forall l,
  sub_go false spaces (fun _ => txt " ") l rt 0 = collapse_go false rt
  /\ sub_go false spaces (fun _ => txt " ") l rt (span_len is_space rt)
     = collapse_go true rt.
Proof.
  induction rt as [|c rt IH]; intros l.
  - cbn [span_len]. rewrite sub_go_nil. unfold matches_at.
    rewrite match_here_spaces. now split.
  - assert (HA : sub_go false spaces (fun _ => txt " ") l (c :: rt) 0
                 = collapse_go false (c :: rt)).
    { rewrite sub_go_cons. unfold matches_at. rewrite match_here_spaces.
      cbn [collapse_go]. destruct (is_space c).
      - cbn [flat_map snd covered rev app]. cbn [txt list_ascii_of_string app].
        f_equal. apply IH.
      - cbn [flat_map covered rev app]. f_equal. apply IH. }
    split; [exact HA|].
    cbn [span_len]. destruct (is_space c) eqn:Ec.
    + rewrite sub_go_skip. cbn [collapse_go]. rewrite Ec. apply IH.
    + rewrite HA. cbn [collapse_go]. now rewrite Ec.
Qed.

Lemma sub_spaces_collapse (t : str) :
  sub false spaces (fun _ => txt " ") t = collapse_go false t.
Proof. apply sub_go_spaces. Qed.

Lemma split_collapse (t : str) : forall b,
  split (collapse_go b t) = split t.
Proof.
  induction t as [|c t IH]; intros b; [reflexivity|].
  cbn [collapse_go]. destruct (is_space c) eqn:Ec.
  - destruct b.
    + rewrite IH. cbn [split]. now rewrite Ec.
    + cbn [split]. rewrite Ec. change (is_space " ") with true. cbv iota.
      apply IH.
  - cbn [split]. rewrite Ec. destruct t as [|d t]; [reflexivity|].
    specialize (IH false). cbn [collapse_go] in IH |- *.
    destruct (is_space d) eqn:Ed.
    + change (is_space " ") with true. cbv iota. now rewrite IH.
    + rewrite Ed. now rewrite IH.
Qed.

Lemma collapse_spacing (t : str) :
  ends_nonspace t ->
  forall b,
    single_spaced (collapse_go b t) = true
    /\ exists d rest, collapse_go true t = d :: rest /\ is_space d = false.
Proof.
  induction t as [|c t IH]; intros He b;
    [now apply ends_nonspace_not_nil in He|].
  destruct t as [|d t].
  - apply ends_nonspace_single in He. cbn [collapse_go]. rewrite He.
    split; [cbn; now rewrite He | now exists c, []].
  - pose proof (ends_nonspace_tail _ _ _ He) as He'.
    specialize (IH He'). remember (d :: t) as t' eqn:Et'.
    cbn [collapse_go]. destruct (is_space c) eqn:Ec.
    + destruct (IH true) as [Hs [e [rest [E He2]]]].
      split; [|now exists e, rest].
      destruct b; [exact Hs|].
      cbn [single_spaced]. change (is_space " ") with true. cbv iota.
      rewrite Hs, E, He2. reflexivity.
    + destruct (IH false) as [Hs _].
      split; [|now exists c, (collapse_go false t')].
      cbn [single_spaced]. now rewrite Ec, Hs.
Qed.

Lemma collapse_head (t : str) :
  no_leading_space t -> no_leading_space (collapse_go false t).
Proof.
  destruct t as [|c t]; [easy|]. cbn. intros Hc. now rewrite Hc.
Qed.

Lemma lstrip_spec (t : str) :
  exists pre, t = pre ++ lstrip t
              /\ Forall (fun c => is_space c = true) pre
              /\ no_leading_space (lstrip t).
Proof.
  induction t as [|c t (pre & E & Hp & Hl)]; [now exists []|].
  cbn [lstrip]. destruct (is_space c) eqn:Ec.
  - exists (c :: pre). split; [cbn [app]; now f_equal|]. split; [|assumption].
    now constructor.
  - exists []. repeat split; [constructor | exact Ec].
Qed.

(** [strip] cuts a run of whitespace off each end and leaves a text that
    neither begins nor ends with whitespace. *)
Lemma strip_spec (t : str) :
  exists pre post,
    t = pre ++ strip t ++ post
    /\ Forall (fun c => is_space c = true) pre
    /\ Forall (fun c => is_space c = true) post
    /\ no_leading_space (strip t) /\ no_trailing_space (strip t).
Proof.
  unfold strip.
  destruct (lstrip_spec t) as (pre & E & Hp & Hl).
  destruct (lstrip_spec (rev (lstrip t))) as (q & Eq & Hq & Hv).
  set (u := lstrip t) in *. set (v := lstrip (rev u)) in *.
  assert (Eu : u = rev v ++ rev q).
  { rewrite <- rev_app_distr, <- Eq. symmetry. apply rev_involutive. }
  exists pre, (rev q). split; [now rewrite <- Eu|]. split; [assumption|].
  split; [now apply Forall_rev|]. split.
  - destruct (rev v) as [|x xs] eqn:Ev; [exact I|].
    rewrite Eu in Hl. exact Hl.
  - destruct v as [|z v']; [now left|]. right.
    exists (rev v'), z. split; [reflexivity | exact Hv].
Qed.

Lemma split_leading (pre t : str) :
  Forall (fun c => is_space c = true) pre -> split (pre ++ t) = split t.
Proof.
  induction 1 as [|c pre Hc Hp IH]; [reflexivity|].
  cbn [app split]. now rewrite Hc.
Qed.

Lemma split_trailing (post : str) :
  Forall (fun c => is_space c = true) post ->
  forall t, split (t ++ post) = split t.
Proof.
  intros Hp. induction t as [|c t IH]; [now apply split_blank|].
  cbn [app split]. destruct (is_space c); [exact IH|].
  destruct t as [|d t].
  - cbn [app]. destruct post as [|d post]; [reflexivity|].
    inversion Hp as [|? ? Hd Hp']; subst. rewrite Hd.
    now rewrite (split_blank (d :: post)).
  - cbn [app] in IH |- *. now rewrite IH.
Qed.

Lemma split_strip (t : str) : split (strip t) = split t.
Proof.
  destruct (strip_spec t) as (pre & post & E & Hp & Hq & _).
  rewrite E at 2. rewrite split_leading by assumption.
  now rewrite split_trailing.
Qed.

(** [remove_spare_space] is the whitespace-separated words of the text
    joined by single blanks. *)
Lemma remove_spare_space_words (text : str) :
  remove_spare_space text = join (txt " ") (split text).
Proof.
  unfold remove_spare_space. rewrite sub_spaces_collapse.
  destruct (strip_spec text) as (_ & _ & _ & _ & _ & Hl & He).
  rewrite <- (split_strip text), <- (split_collapse (strip text) false).
  rewrite single_spaced_words.
  - symmetry. apply lstrip_same. now apply collapse_head.
  - destruct He as [-> | He]; [reflexivity|].
    now apply collapse_spacing.
Qed.

(** X16.  [remove_spare_space] returns the whitespace-separated words of
    the text joined by single blanks, as [" ".join(text.split())] does;
    in particular it is idempotent. *)
Theorem remove_spare_space_joins_words (text : str) :
  remove_spare_space text = join (txt " ") (split text)
  /\ remove_spare_space (remove_spare_space text) = remove_spare_space text.
Proof.
  split; [apply remove_spare_space_words|].
  rewrite !remove_spare_space_words. f_equal.
  apply split_join, split_tokens.
Qed.

Lemma filter_all {A : Type} (f : A -> bool) (l : list A) :
  (forall x, f x = true) -> filter f l = l.
Proof.
  intros Hf. induction l as [|x l IH]; [reflexivity|].
  cbn [filter]. now rewrite Hf, IH.
Qed.

Lemma remove_punctuation_words (text : str) (punctuations : list ascii) :
  remove_punctuation text punctuations
  = join (txt " ")
         (split (filter (fun c => negb (one_of punctuations c)) text)).
Proof.
  unfold remove_punctuation. destruct punctuations as [|p ps].
  - rewrite filter_all by reflexivity. apply remove_spare_space_words.
  - now rewrite sub_cls_filter, remove_spare_space_words.
Qed.

(** X17.  [remove_punctuation] deletes the listed characters and then
    joins the whitespace-separated words of what is left by single
    blanks; with an empty list it only does the latter. *)
Theorem remove_punctuation_filters_then_joins
        (text : str) (punctuations : list ascii) :
  remove_punctuation text punctuations
  = join (txt " ")
         (split (filter (fun c => negb (one_of punctuations c)) text)).
Proof. apply remove_punctuation_words. Qed.

(** X18.  When the blank is not among the listed characters, the result
    of [remove_punctuation] holds none of them.  (A listed blank comes
    back between words that other whitespace separates.) *)
Theorem remove_punctuation_leaves_none
        (text : str) (punctuations : list ascii) :
  one_of punctuations " " = false ->
  Forall (fun c => one_of punctuations c = false)
         (remove_punctuation text punctuations).
Proof.
  intros Hb. rewrite remove_punctuation_words.
  apply Forall_join.
  - now repeat constructor.
  - apply Forall_split. apply Forall_forall. intros c Hc.
    apply filter_In in Hc as [_ Hc]. now apply negb_true_iff in Hc.
Qed.

Lemma remove_punctuation_leaves_none_witness :
  Forall (fun c => one_of ADDRESS_PUNCTUATIONS c = false)
         (remove_punctuation (txt "12, Le-Loi (P.1)") ADDRESS_PUNCTUATIONS).
Proof.
  apply (remove_punctuation_leaves_none (txt "12, Le-Loi (P.1)")
                                        ADDRESS_PUNCTUATIONS).
  reflexivity.
Defined.

(* ===================================================================== *)
(** ** The separators and the dash-city synonyms *)
(* ===================================================================== *)

(** Substituting one character for a character class maps it. *)
Lemma sub_go_cls_map (p : ascii -> bool) (x : ascii) (text : str) : forall l,
  sub_go false (RCls p) (fun _ => [x]) l text 0
  = map (fun c => if p c then x else c) text.
Proof.
  induction text as [|c rt IH]; intros l.
  - rewrite sub_go_nil. unfold matches_at. now rewrite match_here_cls.
  - rewrite sub_go_cons. unfold matches_at. rewrite match_here_cls.
    cbn [map]. destruct (p c); cbn; f_equal; apply IH.
Qed.

Lemma to_upper_not_separator (c : ascii) :
  one_of (txt "._-") c = false -> one_of (txt "._-") (to_upper c) = false.
Proof. ascii_cases c. Qed.

Lemma to_lower_not_separator (c : ascii) :
  one_of (txt "._-") c = false -> one_of (txt "._-") (to_lower c) = false.
Proof. ascii_cases c. Qed.

(** X19.  The result of [add_space_separator] holds no dot, underscore or
    hyphen, neither begins nor ends with whitespace, and every whitespace
    character in it is one blank between two words. *)
Theorem add_space_separator_shape (text : str) :
  Forall (fun c => one_of (txt "._-") c = false) (add_space_separator text)
  /\ single_spaced (add_space_separator text) = true
  /\ no_leading_space (add_space_separator text)
  /\ no_trailing_space (add_space_separator text).
Proof.
  unfold add_space_separator.
  split; [|split; [apply init_cap_words_spacing
                  | split; [apply init_cap_words_spacing
                           | apply init_cap_words_end]]].
  apply Forall_init_cap_words;
    [exact to_upper_not_separator | exact to_lower_not_separator
    | reflexivity |].
  apply Forall_strip.
  apply sub_Forall; [intros; repeat constructor; reflexivity|].
  unfold sub.
  change (fun _ : captures => txt " ") with (fun _ : captures => [" "%char]).
  rewrite sub_go_cls_map. apply Forall_forall. intros c Hc.
  apply in_map_iff in Hc as [d [<- _]].
  destruct (one_of (txt "._-") d) eqn:E; [reflexivity | exact E].
Qed.






